(** * powertoys_text_to_speech: clipboard watcher, text normalizer, speech worker

    A shallow embedding of [src/powertoys_text_to_speech_edge.py] and
    [src/voice_test.py], and the properties the specification states about
    them.

    Python values are modelled as follows.
    - A [str] is the list of its Unicode code points ([N]).
    - An exception that a call may raise is a value of [exn]; a call that can
      raise returns a [result].  [exn] stands for the instances of Python's
      [Exception], which is what every [except Exception:] of the program
      catches.
    - The operating system (clock, clipboard) and the SAPI engine are
      oracles: records of the outcome of each call the program makes. *)

From Stdlib Require Import List NArith ZArith Bool Arith Lia String Ascii DecimalString.
Import ListNotations.

(* ================================================================== *)
(** * Python strings *)
(* ================================================================== *)

Module PyStr.

Definition char := N.
Definition str := list char.

(** A literal of the source, read as the code points of its characters. *)
Definition lit (s : string) : str := map N_of_ascii (list_ascii_of_string s).

Definition LF : char := 0x0A%N.
Definition CR : char := 0x0D%N.
Definition SP : char := 0x20%N.

(** [str.isspace] for one code point; [str.strip] and the class [\s] of
    [re] on a [str] pattern both use this predicate
    ([Py_UNICODE_ISSPACE] in CPython). *)
Definition isspace (c : char) : bool :=
  (((0x09 <=? c) && (c <=? 0x0D)) ||
   ((0x1C <=? c) && (c <=? 0x20)) ||
   (c =? 0x85) || (c =? 0xA0) || (c =? 0x1680) ||
   ((0x2000 <=? c) && (c <=? 0x200A)) ||
   (c =? 0x2028) || (c =? 0x2029) || (c =? 0x202F) ||
   (c =? 0x205F) || (c =? 0x3000))%N.

(** [a == b] on two [str]. *)
Fixpoint eqb (a b : str) : bool :=
  match a, b with
  | [], [] => true
  | x :: a', y :: b' => (x =? y)%N && eqb a' b'
  | _, _ => false
  end.

(** [s.startswith(p)]. *)
Fixpoint startswith (p s : str) : bool :=
  match p, s with
  | [], _ => true
  | x :: p', y :: s' => (x =? y)%N && startswith p' s'
  | _ :: _, [] => false
  end.

(** [m in s]: [m] occurs in [s] as a contiguous substring. *)
Fixpoint contains (m s : str) : bool :=
  startswith m s ||
  match s with
  | [] => false
  | _ :: r => contains m r
  end.

(** [s.lstrip()], [s.rstrip()], [s.strip()]. *)
Fixpoint lstrip (s : str) : str :=
  match s with
  | [] => []
  | c :: r => if isspace c then lstrip r else s
  end.

Definition rstrip (s : str) : str := rev (lstrip (rev s)).

Definition strip (s : str) : str := rstrip (lstrip s).

(** [s.replace(old, new)] for a non-empty [old] (every call of the program
    has one): the occurrences of [old] are found from the left and do not
    overlap.  [skip] counts the characters of the occurrence just replaced
    that the scan still has to pass over. *)
Fixpoint replace_go (old new : str) (skip : nat) (s : str) : str :=
  match s with
  | [] => []
  | c :: r =>
      match skip with
      | S k => replace_go old new k r
      | O =>
          if startswith old s
          then new ++ replace_go old new (List.length old - 1) r
          else c :: replace_go old new 0 r
      end
  end.

Definition replace (s old new : str) : str := replace_go old new 0 s.

(** [re.sub(r"\s{2,}", repl, s)].  The pattern matches, at the leftmost
    position where two whitespace characters follow each other, the whole
    run (the quantifier is greedy); [in_run] says that the scan is inside
    such a match. *)
Fixpoint re_sub_ws2_go (repl : str) (in_run : bool) (s : str) : str :=
  match s with
  | [] => []
  | c :: r =>
      if in_run then
        if isspace c then re_sub_ws2_go repl true r
        else c :: re_sub_ws2_go repl false r
      else
        if isspace c && match r with d :: _ => isspace d | [] => false end
        then repl ++ re_sub_ws2_go repl true r
        else c :: re_sub_ws2_go repl false r
  end.

Definition re_sub_ws2 (repl s : str) : str := re_sub_ws2_go repl false s.

(** Truth value of a [str]: [bool(s)]. *)
Definition truthy (s : str) : bool :=
  match s with [] => false | _ :: _ => true end.

End PyStr.

Import PyStr.

(* ================================================================== *)
(** * Configuration *)
(* ================================================================== *)

Definition MIN_CHARS_TO_SPEAK : nat := 3.
Definition NATURAL_MATCH_SUBSTR : str := lit "natural".
Definition SAPI_RATE : Z := 0.
Definition SAPI_VOLUME : Z := 100.

(* ================================================================== *)
(** * The text normalizer *)
(* ================================================================== *)

Definition tidy_text (s : str) : str :=
  if negb (truthy s) then []
  else
    let s := strip s in
    let s := replace (replace (replace s [CR; LF] [SP]) [LF] [SP]) [CR] [SP] in
    let s := re_sub_ws2 [SP] s in
    strip s.

(* ================================================================== *)
(** * Exceptions, and code that reads and writes a state *)
(* ================================================================== *)

Inductive exn : Type :=
| Empty                        (* queue.Empty *)
| Error (what : string).       (* any other instance of Exception *)

Inductive result (A : Type) : Type :=
| Ok (a : A)
| Raise (e : exn).

Arguments Ok {A} a.
Arguments Raise {A} e.

(** A computation on a state [S]: it returns or raises, and leaves a state
    behind in both cases (what was assigned before a [raise] stays so). *)
Definition M (S A : Type) : Type := S -> result A * S.

Definition ret {S A} (a : A) : M S A := fun st => (Ok a, st).

Definition bind {S A B} (c : M S A) (k : A -> M S B) : M S B :=
  fun st =>
    match c st with
    | (Ok a, st') => k a st'
    | (Raise e, st') => (Raise e, st')
    end.

(** A call into the outside world whose outcome the oracle gives. *)
Definition call {S A} (r : result A) : M S A := fun st => (r, st).

Definition modify {S} (f : S -> S) : M S unit := fun st => (Ok tt, f st).

(** [try: body  except Exception: handler]. *)
Definition try_except {S A} (body : M S A) (handler : exn -> M S A) : M S A :=
  fun st =>
    match body st with
    | (Ok a, st') => (Ok a, st')
    | (Raise e, st') => handler e st'
    end.

(** [try: body  except Empty: handler]: any other exception goes on. *)
Definition try_except_Empty {S A} (body : M S A) (handler : M S A) : M S A :=
  fun st =>
    match body st with
    | (Ok a, st') => (Ok a, st')
    | (Raise Empty, st') => handler st'
    | (Raise e, st') => (Raise e, st')
    end.

(** [try: body  finally: fin]: [fin] always runs; what it raises replaces
    the outcome of [body]. *)
Definition try_finally {S A} (body : M S A) (fin : M S unit) : M S A :=
  fun st =>
    match body st with
    | (r, st') =>
        match fin st' with
        | (Ok _, st'') => (r, st'')
        | (Raise e, st'') => (Raise e, st'')
        end
    end.

Declare Scope py_scope.
Delimit Scope py_scope with py.
Notation "x <- c1 ;; c2" := (bind c1 (fun x => c2))
  (at level 61, c1 at next level, right associativity) : py_scope.
Notation "c1 ;; c2" := (bind c1 (fun _ => c2))
  (at level 61, right associativity) : py_scope.
Open Scope py_scope.

(* ================================================================== *)
(** * The clipboard watcher *)
(* ================================================================== *)

(** What [GetClipboardData] hands back: a [str] or some other object. *)
Inductive pyobj : Type :=
| PyStr (s : str)
| PyOther.

(** The outcome of each [win32clipboard] call of one clipboard read. *)
Record clipboard_os : Type := {
  OpenClipboard : result unit;
  IsClipboardFormatAvailable : result bool;
  GetClipboardData : result pyobj;
  CloseClipboard : result unit
}.

(** The function has one local variable, [text]; that is its state. *)
Definition get_clipboard_text (os : clipboard_os) : result (option str) :=
  let run : M (option str) unit :=
    try_finally
      (try_except
         (call (OpenClipboard os) ;;
          avail <- call (IsClipboardFormatAvailable os) ;;
          if (avail : bool) then
            data <- call (GetClipboardData os) ;;
            match data with
            | PyStr s => modify (fun _ => Some s)
            | PyOther => ret tt
            end
          else ret tt)
         (fun _ => modify (fun _ => None)))
      (try_except (call (CloseClipboard os)) (fun _ => ret tt))
  in
  match run None with
  | (Ok _, text) => Ok text
  | (Raise e, _) => Raise e
  end.

Section Watcher.

(** The clock: the values of [time.time()], their difference and their
    comparison are those of Python's floats and are left abstract. *)
Variable time : Type.
Variable tsub : time -> time -> time.
Variable tlt : time -> time -> bool.

(** The outside world of one call of [wait_for_clip_change]: what the
    successive calls of [time.time()] return and how the clipboard behaves at
    the successive reads. *)
Record world : Type := {
  time_time : nat -> time;
  clipboard : nat -> clipboard_os
}.

(** [current and current != baseline]. *)
Definition changed (current : option str) (baseline : str) : bool :=
  match current with
  | Some c => truthy c && negb (PyStr.eqb c baseline)
  | None => false
  end.

(** The [while] loop at its iteration [k] (the first is 0); [None] when
    [fuel] iterations did not end it.  [time.sleep] only lets the clock
    advance. *)
Fixpoint wait_loop (w : world) (baseline : str) (timeout_s start : time)
    (fuel k : nat) : option (result (option str)) :=
  match fuel with
  | O => None
  | S fuel' =>
      if tlt (tsub (time_time w (S k)) start) timeout_s then
        match get_clipboard_text (clipboard w k) with
        | Raise e => Some (Raise e)
        | Ok current =>
            if changed current baseline then Some (Ok current)
            else wait_loop w baseline timeout_s start fuel' (S k)
        end
      else Some (Ok None)
  end.

Definition wait_for_clip_change (w : world) (baseline : str)
    (timeout_s : time) (fuel : nat) : option (result (option str)) :=
  let start := time_time w 0 in
  wait_loop w baseline timeout_s start fuel 0.

End Watcher.

Arguments time_time {time} w k : rename.
Arguments clipboard {time} w k : rename.
Arguments Build_world {time} time_time clipboard.
Arguments wait_loop {time} tsub tlt w baseline timeout_s start fuel k.
Arguments wait_for_clip_change {time} tsub tlt w baseline timeout_s fuel.

(* ================================================================== *)
(** * The SAPI engine *)
(* ================================================================== *)

(** The outcome of each call that the program makes into [pythoncom] and
    the [SAPI.SpVoice] object.  A voice token is named by its index in the
    enumeration [voice.GetVoices()]; [Speak n txt] is the outcome of the call
    of [voice.Speak(txt)] made after [n] earlier ones. *)
Record sapi : Type := {
  CoInitialize : result unit;
  Dispatch : result unit;
  GetVoices : result unit;
  Count : result nat;
  Item : nat -> result unit;
  GetDescription : nat -> result str;
  put_Voice : nat -> result unit;
  Voice_GetDescription : result str;
  put_Rate : Z -> result unit;
  put_Volume : Z -> result unit;
  Speak : nat -> str -> result unit;
  CoUninitialize : result unit
}.

(** What the program has done to the outside so far, and the queue. *)
Record state : Type := {
  _q : list str;            (* the queue of the speaker, oldest first *)
  Voice : option nat;       (* [None]: the voice the engine starts with *)
  Rate : option Z;          (* [None]: the rate the engine starts with *)
  Volume : option Z;
  spoken : list str;        (* the arguments of the calls of [Speak] *)
  stdout : list str;        (* the lines printed *)
  com : bool                (* between [CoInitialize] and [CoUninitialize] *)
}.

Definition set_q (v : list str) (st : state) : state :=
  {| _q := v; Voice := Voice st; Rate := Rate st; Volume := Volume st;
     spoken := spoken st; stdout := stdout st; com := com st |}.
Definition set_Voice (v : option nat) (st : state) : state :=
  {| _q := _q st; Voice := v; Rate := Rate st; Volume := Volume st;
     spoken := spoken st; stdout := stdout st; com := com st |}.
Definition set_Rate (v : option Z) (st : state) : state :=
  {| _q := _q st; Voice := Voice st; Rate := v; Volume := Volume st;
     spoken := spoken st; stdout := stdout st; com := com st |}.
Definition set_Volume (v : option Z) (st : state) : state :=
  {| _q := _q st; Voice := Voice st; Rate := Rate st; Volume := v;
     spoken := spoken st; stdout := stdout st; com := com st |}.
Definition set_spoken (v : list str) (st : state) : state :=
  {| _q := _q st; Voice := Voice st; Rate := Rate st; Volume := Volume st;
     spoken := v; stdout := stdout st; com := com st |}.
Definition set_stdout (v : list str) (st : state) : state :=
  {| _q := _q st; Voice := Voice st; Rate := Rate st; Volume := Volume st;
     spoken := spoken st; stdout := v; com := com st |}.
Definition set_com (v : bool) (st : state) : state :=
  {| _q := _q st; Voice := Voice st; Rate := Rate st; Volume := Volume st;
     spoken := spoken st; stdout := stdout st; com := v |}.

Definition fresh : state :=
  {| _q := []; Voice := None; Rate := None; Volume := None;
     spoken := []; stdout := []; com := false |}.

(** [print(line)] on a console that takes the line: the line is added to
    the output.  This is the [print] of the worker's start-up messages and
    of the voice listing, whose lines are fixed text and voice descriptions;
    [print_on] below is [print] on a console that may refuse a line. *)
Definition print (line : str) : M state unit :=
  modify (fun st => set_stdout (stdout st ++ [line]) st).

(** [print(line)] on the console [console], which takes the line or raises
    (a console that cannot encode the text raises [UnicodeEncodeError]): a
    line that is refused is not written. *)
Definition print_on (console : str -> result unit) (line : str)
    : M state unit :=
  fun st =>
    match console line with
    | Raise e => (Raise e, st)
    | Ok _ => print line st
    end.

(** [voice.Voice = selected], [voice.Rate = r], [voice.Volume = v]. *)
Definition assign_Voice (os : sapi) (i : nat) : M state unit :=
  call (put_Voice os i) ;; modify (set_Voice (Some i)).
Definition assign_Rate (os : sapi) (r : Z) : M state unit :=
  call (put_Rate os r) ;; modify (set_Rate (Some r)).
Definition assign_Volume (os : sapi) (v : Z) : M state unit :=
  call (put_Volume os v) ;; modify (set_Volume (Some v)).

(** [voice.Speak(txt)]: the call is made, then it returns or raises. *)
Definition do_Speak (os : sapi) (txt : str) : M state unit :=
  fun st =>
    (Speak os (List.length (spoken st)) txt,
     set_spoken (spoken st ++ [txt]) st).

(** [self._q.get(timeout=0.1)] when no [put] comes within the timeout. *)
Definition q_get : M state str :=
  fun st =>
    match _q st with
    | [] => (Raise Empty, st)
    | txt :: rest => (Ok txt, set_q rest st)
    end.

(** [str(i)] in an f-string. *)
Definition str_of_nat (i : nat) : str :=
  lit (DecimalString.NilEmpty.string_of_uint (Nat.to_uint i)).

(* ================================================================== *)
(** * The speech worker *)
(* ================================================================== *)

(** The thread of [_run]: before its loop, in its loop, or ended by an
    exception. *)
Inductive thread : Type :=
| Initializing
| Draining
| Terminated (e : exn).

(** The speaker object: its match string, its thread, and in [mem] its
    queue together with what the thread has done to the engine and the
    console. *)
Record SapiNaturalSpeaker : Type := {
  _match : str;
  _thr : thread;
  mem : state
}.

Inductive event : Type :=
| Submit (text : str)      (* the main thread calls [speaker.speak(text)] *)
| Tick.                    (* the worker thread takes its next step *)

Section Speaker.

(** [str.lower()], given by the Unicode tables of the Python runtime. *)
Variable lower : str -> str.

Definition __init__ (natural_match_substr : option str) : SapiNaturalSpeaker :=
  let arg := match natural_match_substr with
             | Some s => if truthy s then s else []
             | None => []
             end in
  {| _match := lower arg; _thr := Initializing; mem := fresh |}.

Definition speak (text : str) (self : SapiNaturalSpeaker) : SapiNaturalSpeaker :=
  if truthy text && (MIN_CHARS_TO_SPEAK <=? List.length text) then
    {| _match := _match self; _thr := _thr self;
       mem := set_q (_q (mem self) ++ [text]) (mem self) |}
  else self.

(** The [for] loop of [_run] over the indices still to visit; it returns
    [selected]. *)
Fixpoint select_first (os : sapi) (m : str) (idxs : list nat)
    : M state (option nat) :=
  match idxs with
  | [] => ret None
  | i :: rest =>
      call (Item os i) ;;
      desc <- call (GetDescription os i) ;;
      if truthy m && contains m (lower desc)
      then ret (Some i)                        (* break *)
      else select_first os m rest
  end.

(** The body of the [try] of [_run] up to its loop.  [if selected:] asks
    whether a token was found: a token object is never false. *)
Definition _run_startup (os : sapi) (m : str) : M state unit :=
  call (Dispatch os) ;;
  call (GetVoices os) ;;
  n <- call (Count os) ;;
  selected <- select_first os m (seq 0 n) ;;
  match selected with
  | Some i =>
      assign_Voice os i ;;
      d <- call (Voice_GetDescription os) ;;
      print (lit "[SAPI] Selected Natural voice: " ++ d)
  | None =>
      print (lit "[SAPI] No 'Natural' voice found in SAPI tokens; using default SAPI voice.")
  end ;;
  try_except
    (assign_Rate os SAPI_RATE ;; assign_Volume os SAPI_VOLUME)
    (fun _ => ret tt).

(** One turn of [while True]. *)
Definition _run_iteration (os : sapi) : M state unit :=
  got <- try_except_Empty (txt <- q_get ;; ret (Some txt)) (ret None) ;;
  match got with
  | None => ret tt                             (* continue *)
  | Some txt => try_except (do_Speak os txt) (fun _ => ret tt)
  end.

(** The [finally] clause of [_run]. *)
Definition _run_finally (os : sapi) : M state unit :=
  call (CoUninitialize os) ;; modify (set_com false).

(** A piece of the [try] body: when it returns the thread is in the loop;
    when it raises, the [finally] clause runs and the thread ends with the
    exception that leaves [_run]. *)
Definition in_try (os : sapi) (c : M state unit) (st : state) : thread * state :=
  match c st with
  | (Ok _, st') => (Draining, st')
  | (Raise e, st') =>
      match _run_finally os st' with
      | (Ok _, st'') => (Terminated e, st'')
      | (Raise e', st'') => (Terminated e', st'')
      end
  end.

(** [_run], one step at a time: the start-up, then one turn of the loop per
    step. *)
Definition _run (os : sapi) (self : SapiNaturalSpeaker) : SapiNaturalSpeaker :=
  let next (r : thread * state) :=
    {| _match := _match self; _thr := fst r; mem := snd r |} in
  match _thr self with
  | Initializing =>
      match (call (CoInitialize os) ;; modify (set_com true)) (mem self) with
      | (Raise e, st) => next (Terminated e, st)
      | (Ok _, st) => next (in_try os (_run_startup os (_match self)) st)
      end
  | Draining => next (in_try os (_run_iteration os) (mem self))
  | Terminated _ => self
  end.

(** The two threads interleaved: the main thread submits, the worker runs. *)
Definition step (os : sapi) (self : SapiNaturalSpeaker) (ev : event)
    : SapiNaturalSpeaker :=
  match ev with
  | Submit text => speak text self
  | Tick => _run os self
  end.

Definition exec (os : sapi) (evs : list event) (self : SapiNaturalSpeaker)
    : SapiNaturalSpeaker :=
  fold_left (step os) evs self.

(* ================================================================== *)
(** * The voice-listing script, [voice_test.py] *)
(* ================================================================== *)

(** Its [for] loop; [chosen] is the variable of that name. *)
Fixpoint choose_last (os : sapi) (idxs : list nat) (chosen : option nat)
    : M state (option nat) :=
  match idxs with
  | [] => ret chosen
  | i :: rest =>
      call (Item os i) ;;
      desc <- call (GetDescription os i) ;;
      print (str_of_nat i ++ lit ": " ++ desc) ;;
      choose_last os rest
        (if contains (lit "natural") (lower desc) then Some i else chosen)
  end.

Definition voice_test (os : sapi) : M state unit :=
  call (Dispatch os) ;;
  call (GetVoices os) ;;
  print (lit "Available SAPI voices:" ++ [LF]) ;;
  n <- call (Count os) ;;
  chosen <- choose_last os (seq 0 n) None ;;
  match chosen with
  | Some i =>
      assign_Voice os i ;;
      d <- call (Voice_GetDescription os) ;;
      print ([LF] ++ lit "Selected Natural voice: " ++ d)
  | None =>
      print ([LF] ++ lit "No Natural voice found, using default voice.")
  end ;;
  do_Speak os (lit "Hello, this is a test of the selected voice.").

End Speaker.

(* ================================================================== *)
(** * The hotkey callback, [on_hotkey] of [main] *)
(* ================================================================== *)

Section Hotkey.

Variable time : Type.
Variable tsub : time -> time -> time.
Variable tlt : time -> time -> bool.

(** [CLIPBOARD_WAIT_SECONDS = 15], as a value of the clock. *)
Variable CLIPBOARD_WAIT_SECONDS : time.

(** What the console does with a line that [print] hands it: it takes the
    line, or raises (a console that cannot encode the text).  The callback
    prints text that comes from the clipboard. *)
Variable console : str -> result unit.

(** The world that the watcher sees once the callback has read the
    clipboard for its baseline. *)
Definition after_baseline (w : world time) : world time :=
  {| time_time := time_time w; clipboard := fun k => clipboard w (S k) |}.

(** [get_clipboard_text() or ""]. *)
Definition or_empty (o : option str) : str :=
  match o with
  | Some s => if truthy s then s else []
  | None => []
  end.

(** The callback, run on the speaker [self]; [None] when [fuel] turns did
    not end the watcher's loop. *)
Definition on_hotkey (w : world time) (fuel : nat) (self : SapiNaturalSpeaker)
    : option (result SapiNaturalSpeaker) :=
  match get_clipboard_text (clipboard w 0) with
  | Raise e => Some (Raise e)
  | Ok got =>
      let baseline := or_empty got in
      match wait_for_clip_change tsub tlt (after_baseline w) baseline
              CLIPBOARD_WAIT_SECONDS fuel with
      | None => None
      | Some (Raise e) => Some (Raise e)
      | Some (Ok None) => Some (Ok self)
      | Some (Ok (Some new_text)) =>
          if truthy new_text then
            let cleaned := tidy_text new_text in
            if truthy cleaned && (MIN_CHARS_TO_SPEAK <=? List.length cleaned)
            then
              let line := [LF] ++ lit "[Spoken text]" ++ [LF] ++ cleaned
                          ++ [LF] in
              match print_on console line (mem self) with
              | (Raise e, _) => Some (Raise e)
              | (Ok _, shown) =>
                  Some (Ok (speak cleaned
                              {| _match := _match self; _thr := _thr self;
                                 mem := shown |}))
              end
            else Some (Ok self)
          else Some (Ok self)
      end
  end.

End Hotkey.

Arguments after_baseline {time} w.
Arguments on_hotkey {time} tsub tlt CLIPBOARD_WAIT_SECONDS console w fuel self.

(* ================================================================== *)
(** * The project set-up script, [setup_project.py] *)
(* ================================================================== *)

Definition TOKEN : str := lit "input_name".

(** The classes [[A-Za-z0-9]] and [[A-Za-z0-9._-]] of the name pattern. *)
Definition is_alnum (c : char) : bool :=
  (((0x30 <=? c) && (c <=? 0x39)) ||
   ((0x41 <=? c) && (c <=? 0x5A)) ||
   ((0x61 <=? c) && (c <=? 0x7A)))%N.

Definition is_name_char (c : char) : bool :=
  (is_alnum c || (c =? 0x2E) || (c =? 0x5F) || (c =? 0x2D))%N.

(** What [[A-Za-z0-9._-]*] leaves: the quantifier is greedy, and giving
    characters back cannot help [$], which no name character satisfies. *)
Fixpoint after_name_chars (s : str) : str :=
  match s with
  | [] => []
  | c :: r => if is_name_char c then after_name_chars r else s
  end.

(** [$]: the end of the string, or the position before a final newline. *)
Definition at_dollar (s : str) : bool :=
  match s with
  | [] => true
  | [c] => (c =? LF)%N
  | _ => false
  end.

(** [re.match(r"^[A-Za-z0-9][A-Za-z0-9._-]*$", name)] finds a match. *)
Definition re_match_name (name : str) : bool :=
  match name with
  | [] => false
  | c :: r => is_alnum c && at_dollar (after_name_chars r)
  end.

(** [raise ValueError(msg)] is [Raise (Error msg)]. *)
Definition validate_project_name (name : str) : result str :=
  let name := strip name in
  if negb (truthy name) then
    Raise (Error "Project name cannot be empty.")
  else if contains [SP] name then
    Raise (Error "Project name cannot contain spaces.")
  else if negb (re_match_name name) then
    Raise (Error "Invalid project name. Use letters/numbers and . _ - ; must start with a letter/number.")
  else Ok name.

(** [text.replace(token, replacement)].  With an empty [token], Python puts
    [replacement] before every character and at the end. *)
Definition replace_token_in_text (text token replacement : str) : str :=
  match token with
  | [] => replacement ++ flat_map (fun c => c :: replacement) text
  | _ :: _ => replace text token replacement
  end.

(** The file system as the script meets it: whether a path exists, what
    reading it gives, what writing to it does. *)
Record disk : Type := {
  path_exists : string -> bool;
  read_text : string -> result str;
  write_text : string -> str -> result unit
}.

(** What the script has done so far: the writes it asked for, the lines it
    printed. *)
Record io : Type := {
  written : list (string * str);
  printed : list str
}.

Definition io_print (line : str) : M io unit :=
  modify (fun st => {| written := written st; printed := printed st ++ [line] |}).

(** [path.write_text(updated, encoding="utf-8")]: the write is asked for,
    then it returns or raises. *)
Definition do_write_text (os : disk) (path : string) (updated : str)
    : M io unit :=
  fun st =>
    (write_text os path updated,
     {| written := written st ++ [(path, updated)]; printed := printed st |}).

Definition replace_token_in_file (os : disk) (path : string)
    (token replacement : str) (dry_run : bool) : M io bool :=
  if negb (path_exists os path) then
    io_print (lit "  - Skipping missing file: " ++ lit path) ;;
    ret false
  else
    original <- call (read_text os path) ;;
    let updated := replace_token_in_text original token replacement in
    if negb (PyStr.eqb updated original) then
      (if dry_run then
         io_print (lit "  - Would update: " ++ lit path)
       else
         do_write_text os path updated ;;
         io_print (lit "  - Updated: " ++ lit path)) ;;
      ret true
    else
      io_print (lit "  - No changes needed: " ++ lit path) ;;
      ret false.

(* ================================================================== *)
(** * Vocabulary of the specification *)
(* ================================================================== *)

(** The first character of [s] is whitespace. *)
Definition head_ws (s : str) : bool :=
  match s with
  | c :: _ => isspace c
  | [] => false
  end.

(** Somewhere in [s] two whitespace characters follow each other. *)
Fixpoint adjacent_ws (s : str) : bool :=
  match s with
  | [] => false
  | a :: r => (isspace a && head_ws r) || adjacent_ws r
  end.

(** What the normalizer establishes, and what it leaves alone. *)
Record normalized (t : str) : Prop := {
  norm_head : head_ws t = false;
  norm_last : head_ws (rev t) = false;
  norm_LF : ~ In LF t;
  norm_CR : ~ In CR t;
  norm_adjacent : adjacent_ws t = false
}.

(** ** The watcher *)

Section WatcherVocabulary.

Variable time : Type.
Variable tsub : time -> time -> time.
Variable tlt : time -> time -> bool.

(** The clock test of the loop at its iteration [k]: the timeout has not
    elapsed yet. *)
Definition within (w : world time) (timeout_s : time) (k : nat) : bool :=
  tlt (tsub (time_time w (S k)) (time_time w 0)) timeout_s.

(** What the poll of iteration [k] observes. *)
Definition sample (w : world time) (k : nat) : option str :=
  match get_clipboard_text (clipboard w k) with
  | Ok text => text
  | Raise _ => None
  end.

(** An observed value that is non-empty and different from the baseline. *)
Definition is_change (baseline : str) (o : option str) : Prop :=
  exists c, o = Some c /\ c <> [] /\ c <> baseline.

End WatcherVocabulary.

Arguments within {time} tsub tlt w timeout_s k.
Arguments sample {time} w k.

(** One of the calls of a clipboard read raises. *)
Definition read_fails (os : clipboard_os) : Prop :=
  (exists e, OpenClipboard os = Raise e) \/
  (exists e, IsClipboardFormatAvailable os = Raise e) \/
  (exists e, GetClipboardData os = Raise e).

(** Clipboards for examples: one that holds [s], one locked by another
    process. *)
Definition clipboard_holding (s : str) : clipboard_os :=
  {| OpenClipboard := Ok tt; IsClipboardFormatAvailable := Ok true;
     GetClipboardData := Ok (PyStr s); CloseClipboard := Ok tt |}.

Definition clipboard_locked : clipboard_os :=
  {| OpenClipboard := Raise (Error "Access is denied");
     IsClipboardFormatAvailable := Ok true;
     GetClipboardData := Ok PyOther;
     CloseClipboard := Raise (Error "Thread does not have a clipboard open") |}.

(** A world for examples: the clock, in milliseconds, advances by 100 from
    one reading to the next; the clipboard holds "old" at the first two
    polls, is locked at the third and holds "Hello" from the fourth on. *)
Definition demo_world : world Z :=
  {| time_time := fun k => (100 * Z.of_nat k)%Z;
     clipboard := fun k =>
       match k with
       | 0 | 1 => clipboard_holding (lit "old")
       | 2 => clipboard_locked
       | _ => clipboard_holding (lit "Hello")
       end |}.

(** ** The speech worker *)

(** [str.lower()] on a string of ASCII characters. *)
Definition ascii_lower_char (c : char) : char :=
  if ((0x41 <=? c) && (c <=? 0x5A))%N then (c + 0x20)%N else c.

Definition ascii_lower (s : str) : str := map ascii_lower_char s.

Definition is_ascii (c : char) : Prop := (c < 0x80)%N.

(** What is used of Python's [str.lower]: on ASCII strings it is the
    character-wise map, and it never empties a string. *)
Record python_lower (lower : str -> str) : Prop := {
  lower_ascii : forall s, Forall is_ascii s -> lower s = ascii_lower s;
  lower_nonempty : forall s, s <> [] -> lower s <> []
}.

(** The description [d] contains [m], both taken in lower case. *)
Definition hit (lower : str -> str) (m d : str) : bool :=
  contains (lower m) (lower d).

(** The index of the first description that contains [m], both taken in
    lower case; [i] is the index of the head of [descs]. *)
Fixpoint first_containing_from (lower : str -> str) (m : str)
    (descs : list str) (i : nat) : option nat :=
  match descs with
  | [] => None
  | d :: rest =>
      if contains (lower m) (lower d) then Some i
      else first_containing_from lower m rest (S i)
  end.

Definition first_containing (lower : str -> str) (m : str) (descs : list str)
    : option nat :=
  first_containing_from lower m descs 0.

(** The index of the last such description. *)
Fixpoint last_containing_from (lower : str -> str) (m : str)
    (descs : list str) (i : nat) : option nat :=
  match descs with
  | [] => None
  | d :: rest =>
      match last_containing_from lower m rest (S i) with
      | Some j => Some j
      | None => if contains (lower m) (lower d) then Some i else None
      end
  end.

Definition last_containing (lower : str -> str) (m : str) (descs : list str)
    : option nat :=
  last_containing_from lower m descs 0.

(** The engine enumerates the voices described by [descs]. *)
Record enumerates (os : sapi) (descs : list str) : Prop := {
  enum_Count : Count os = Ok (List.length descs);
  enum_Item : forall i, i < List.length descs -> Item os i = Ok tt;
  enum_GetDescription :
    forall i d, nth_error descs i = Some d -> GetDescription os i = Ok d
}.

(** Service initialization and voice enumeration and selection raise
    nothing.  Nothing is said of the rate and volume calls, of [Speak] and of
    [CoUninitialize]. *)
Record startup_succeeds (os : sapi) (descs : list str) : Prop := {
  su_CoInitialize : CoInitialize os = Ok tt;
  su_Dispatch : Dispatch os = Ok tt;
  su_GetVoices : GetVoices os = Ok tt;
  su_enumerates : enumerates os descs;
  su_put_Voice : forall i, put_Voice os i = Ok tt;
  su_Voice_GetDescription : exists d, Voice_GetDescription os = Ok d
}.

(** The texts that the main thread submits during [evs], in order. *)
Fixpoint submitted (evs : list event) : list str :=
  match evs with
  | [] => []
  | Submit text :: rest => text :: submitted rest
  | Tick :: rest => submitted rest
  end.

(** A text that meets the minimum-length threshold. *)
Definition long_enough (text : str) : Prop :=
  MIN_CHARS_TO_SPEAK <= List.length text.

(** A substitute engine for examples: it enumerates [descs]; the rate and
    volume calls and every [Speak] have the outcomes given, every other call
    succeeds. *)
Definition engine (descs : list str) (tuning : result unit)
    (speaking : nat -> result unit) : sapi :=
  {| CoInitialize := Ok tt;
     Dispatch := Ok tt;
     GetVoices := Ok tt;
     Count := Ok (List.length descs);
     Item := fun _ => Ok tt;
     GetDescription := fun i =>
       match nth_error descs i with
       | Some d => Ok d
       | None => Raise (Error "index out of range")
       end;
     put_Voice := fun _ => Ok tt;
     Voice_GetDescription := Ok [];
     put_Rate := fun _ => tuning;
     put_Volume := fun _ => tuning;
     Speak := fun n _ => speaking n;
     CoUninitialize := Ok tt |}.

(** An engine whose [SAPI.SpVoice] object cannot be created. *)
Definition engine_without_SpVoice : sapi :=
  {| CoInitialize := Ok tt;
     Dispatch := Raise (Error "Invalid class string");
     GetVoices := Ok tt;
     Count := Ok 0;
     Item := fun _ => Ok tt;
     GetDescription := fun _ => Ok [];
     put_Voice := fun _ => Ok tt;
     Voice_GetDescription := Ok [];
     put_Rate := fun _ => Ok tt;
     put_Volume := fun _ => Ok tt;
     Speak := fun _ _ => Ok tt;
     CoUninitialize := Ok tt |}.

(** The computation [c] leaves the component [f] of the state as it was,
    whether it returns or raises. *)
Definition frames {X A : Type} (f : state -> X) (c : M state A) : Prop :=
  forall st, f (snd (c st)) = f st.

(** The state after one turn of the worker's loop: the oldest text, if there
    is one, has left the queue and has been passed to [Speak]. *)
Definition after_turn (st : state) : state :=
  match _q st with
  | [] => st
  | txt :: rest => set_spoken (spoken st ++ [txt]) (set_q rest st)
  end.

(** Of the texts submitted, those that [speak] puts on the queue. *)
Definition accepted (texts : list str) : list str :=
  filter (fun t => MIN_CHARS_TO_SPEAK <=? List.length t) texts.

(** The thread of the worker has not ended. *)
Definition alive (self : SapiNaturalSpeaker) : Prop :=
  _thr self = Initializing \/ _thr self = Draining.

(** The rate and the volume of the engine after the tuning of the start-up:
    an assignment that raises ends the tuning, and what was not assigned
    keeps the value the engine started with. *)
Definition tuning_outcome (os : sapi) : option Z * option Z :=
  match put_Rate os SAPI_RATE, put_Volume os SAPI_VOLUME with
  | Raise _, _ => (None, None)
  | Ok _, Raise _ => (Some SAPI_RATE, None)
  | Ok _, Ok _ => (Some SAPI_RATE, Some SAPI_VOLUME)
  end.

(** Before its first step the thread has tuned nothing; from then on the
    rate and the volume are what the tuning left. *)
Definition tuned (os : sapi) (self : SapiNaturalSpeaker) : Prop :=
  (_thr self = Initializing /\
   Rate (mem self) = None /\ Volume (mem self) = None) \/
  (_thr self = Draining /\
   (Rate (mem self), Volume (mem self)) = tuning_outcome os).

(** [s] is empty or starts with a whitespace character: a word that ends
    before [s] ends there. *)
Definition sep_first (s : str) : bool :=
  head_ws s || negb (truthy s).

(** [s.split()]: the words of [s], its maximal runs of characters that are
    not whitespace, in order. *)
Fixpoint words (s : str) : list str :=
  match s with
  | [] => []
  | c :: r =>
      if isspace c then words r
      else if sep_first r then [c] :: words r
      else match words r with
           | w :: ws => (c :: w) :: ws
           | [] => [[c]]
           end
  end.

(** Every character of [s] is whitespace. *)
Definition blank (s : str) : Prop := Forall (fun c => isspace c = true) s.

(** One of the calls that come first in the worker's start-up raises. *)
Definition startup_fails (os : sapi) : Prop :=
  (exists e, CoInitialize os = Raise e) \/
  (exists e, Dispatch os = Raise e) \/
  (exists e, GetVoices os = Raise e) \/
  (exists e, Count os = Raise e).

(** A disk for examples: [files] lists the paths that exist with their
    text; every read and write succeeds. *)
Definition disk_of (files : list (string * str)) : disk :=
  {| path_exists := fun p =>
       existsb (fun f => String.eqb (fst f) p) files;
     read_text := fun p =>
       match find (fun f => String.eqb (fst f) p) files with
       | Some f => Ok (snd f)
       | None => Raise (Error "No such file or directory")
       end;
     write_text := fun _ _ => Ok tt |}.

Definition no_io : io := {| written := []; printed := [] |}.


(** A speaker whose worker is in its loop, with nothing queued. *)
Definition idle_speaker : SapiNaturalSpeaker :=
  {| _match := NATURAL_MATCH_SUBSTR; _thr := Draining;
     mem := set_com true fresh |}.

(** The lines by which [voice_test.py] lists the voices described by
    [descs], the first of which has the index [i]. *)
Fixpoint listing (descs : list str) (i : nat) : list str :=
  match descs with
  | [] => []
  | d :: rest => (str_of_nat i ++ lit ": " ++ d) :: listing rest (S i)
  end.

(** The engine enumerates at least the voices described by [descs], which
    come first; nothing is said of the voices after them. *)
Definition enumerates_first (os : sapi) (descs : list str) : Prop :=
  forall i d, nth_error descs i = Some d ->
    Item os i = Ok tt /\ GetDescription os i = Ok d.

(** An engine with three voices, the last of which cannot be described. *)
Definition engine_with_broken_voice : sapi :=
  {| CoInitialize := Ok tt;
     Dispatch := Ok tt;
     GetVoices := Ok tt;
     Count := Ok 3;
     Item := fun _ => Ok tt;
     GetDescription := fun i =>
       match i with
       | 0 => Ok (lit "Microsoft David")
       | 1 => Ok (lit "Microsoft Natural-II")
       | _ => Raise (Error "The token is missing its description")
       end;
     put_Voice := fun _ => Ok tt;
     Voice_GetDescription := Ok (lit "Microsoft Natural-II");
     put_Rate := fun _ => Ok tt;
     put_Volume := fun _ => Ok tt;
     Speak := fun _ _ => Ok tt;
     CoUninitialize := Ok tt |}.

(** What the specification says becomes of the run [gap] of whitespace that
    stands between two words: a newline, in any of its forms, is turned into
    a space, a run of two or more whitespace characters is collapsed to one
    space, and nothing else is changed (a lone tab stays a tab). *)
Definition one_space (gap : str) : str :=
  match gap with
  | [] => []
  | [c] => if ((c =? LF) || (c =? CR))%N then [SP] else [c]
  | _ :: _ :: _ => [SP]
  end.

(** The normalizer as the specification words it, in one pass over the
    input: the characters that are not whitespace are copied; [gap] is the
    run of whitespace read since the last of them; the run before the first
    word ([started] is false) and the run after the last word are stripped,
    every run between two words becomes [one_space] of it. *)
Fixpoint normalize_from (started : bool) (gap s : str) : str :=
  match s with
  | [] => []
  | c :: r =>
      if isspace c then normalize_from started (gap ++ [c]) r
      else (if started then one_space gap else [])
           ++ c :: normalize_from true [] r
  end.

Definition normalize (s : str) : str := normalize_from false [] s.

(** [F] applied to each maximal run of whitespace of [s], what is not
    whitespace being copied.  With [ends] the runs at the two ends of [s]
    are treated like the others, without it they are dropped. *)
Fixpoint map_runs (ends : bool) (F : str -> str) (started : bool)
    (gap s : str) : str :=
  match s with
  | [] => if ends then F gap else []
  | c :: r =>
      if isspace c then map_runs ends F started (gap ++ [c]) r
      else (if started || ends then F gap else [])
           ++ c :: map_runs ends F true [] r
  end.

(** [G] works on each run of whitespace by itself: what it does to a run
    does not depend on what stands around the run. *)
Definition acts_on_runs (G : str -> str) : Prop :=
  G [] = [] /\
  (forall g, blank g -> blank (G g)) /\
  (forall g c r, blank g -> isspace c = false ->
     G (g ++ c :: r) = G g ++ c :: G r).



Definition console_ascii_only : str -> result unit :=
  fun line =>
    if forallb (fun c => (c <? 0x80)%N) line then Ok tt
    else Raise (Error "UnicodeEncodeError").

(** The voices of the specification's example. *)
Definition example_voices : list str :=
  [lit "Microsoft David"; lit "Microsoft Natural-II"; lit "Microsoft Zira"].

(* ================================================================== *)
(** * Properties of the string operations *)
(* ================================================================== *)

Section StringFacts.

Lemma lstrip_head (s : str) : head_ws (lstrip s) = false.
Proof.
  induction s as [|c r IH]; simpl; [reflexivity|].
  destruct (isspace c) eqn:E; [exact IH|]. simpl. exact E.
Qed.

Lemma lstrip_suffix (s : str) : exists p, s = p ++ lstrip s.
Proof.
  induction s as [|c r [p Hp]]; simpl.
  - exists []. reflexivity.
  - destruct (isspace c).
    + exists (c :: p). simpl. f_equal. exact Hp.
    + exists []. reflexivity.
Qed.

Lemma lstrip_id (s : str) : head_ws s = false -> lstrip s = s.
Proof. destruct s as [|c r]; simpl; intros H; [reflexivity|]. now rewrite H. Qed.

Lemma rstrip_prefix (s : str) : exists p, s = rstrip s ++ p.
Proof.
  unfold rstrip. destruct (lstrip_suffix (rev s)) as [p Hp].
  exists (rev p). rewrite <- rev_app_distr, <- Hp. symmetry. apply rev_involutive.
Qed.

Lemma rstrip_last (s : str) : head_ws (rev (rstrip s)) = false.
Proof. unfold rstrip. rewrite rev_involutive. apply lstrip_head. Qed.

Lemma rstrip_id (s : str) : head_ws (rev s) = false -> rstrip s = s.
Proof. intros H. unfold rstrip. rewrite lstrip_id by exact H. apply rev_involutive. Qed.

Lemma head_ws_prefix (s p : str) : head_ws (s ++ p) = false -> head_ws s = false.
Proof. destruct s; simpl; auto. Qed.

Lemma strip_head (s : str) : head_ws (strip s) = false.
Proof.
  unfold strip. destruct (rstrip_prefix (lstrip s)) as [p Hp].
  apply head_ws_prefix with (p := p). rewrite <- Hp. apply lstrip_head.
Qed.

Lemma strip_last (s : str) : head_ws (rev (strip s)) = false.
Proof. apply rstrip_last. Qed.

Lemma strip_id (s : str) :
  head_ws s = false -> head_ws (rev s) = false -> strip s = s.
Proof.
  intros H1 H2. unfold strip. rewrite (lstrip_id _ H1). now apply rstrip_id.
Qed.

(** [strip s] is a slice of [s]. *)
Lemma strip_slice (s : str) : exists p q, s = p ++ strip s ++ q.
Proof.
  destruct (lstrip_suffix s) as [p Hp].
  destruct (rstrip_prefix (lstrip s)) as [q Hq].
  exists p, q. unfold strip. now rewrite <- Hq.
Qed.

Lemma adjacent_ws_cons (a : char) (s : str) :
  adjacent_ws (a :: s) = false -> adjacent_ws s = false.
Proof. simpl. intros H. now apply orb_false_elim in H. Qed.

Lemma adjacent_ws_suffix (p s : str) :
  adjacent_ws (p ++ s) = false -> adjacent_ws s = false.
Proof.
  induction p as [|a p IH]; simpl; intros H; [exact H|].
  apply IH. now apply orb_false_elim in H.
Qed.

Lemma head_ws_app (s q : str) : s <> [] -> head_ws (s ++ q) = head_ws s.
Proof. destruct s; simpl; congruence. Qed.

Lemma adjacent_ws_prefix (s q : str) :
  adjacent_ws (s ++ q) = false -> adjacent_ws s = false.
Proof.
  induction s as [|a s IH]; simpl; intros H; [reflexivity|].
  apply orb_false_elim in H. destruct H as [H1 H2].
  rewrite (IH H2), orb_false_r.
  destruct s as [|b s]; [apply andb_false_r|exact H1].
Qed.

Lemma adjacent_ws_strip (s : str) :
  adjacent_ws s = false -> adjacent_ws (strip s) = false.
Proof.
  intros H. destruct (strip_slice s) as (p & q & E). rewrite E in H.
  apply adjacent_ws_suffix in H. now apply adjacent_ws_prefix in H.
Qed.

Lemma not_In_strip (c : char) (s : str) : ~ In c s -> ~ In c (strip s).
Proof.
  intros H Hin. apply H. destruct (strip_slice s) as (p & q & E).
  rewrite E. apply in_or_app. right. apply in_or_app. now left.
Qed.

(** Two adjacent whitespace characters, read off a decomposition. *)
Lemma adjacent_ws_at (l1 l2 : str) (a b : char) :
  isspace a = true -> isspace b = true ->
  adjacent_ws (l1 ++ a :: b :: l2) = true.
Proof.
  intros Ha Hb. induction l1 as [|x l1 IH]; simpl.
  - now rewrite Ha, Hb.
  - rewrite IH. apply orb_true_r.
Qed.

(** [replace]: where the characters of the result come from. *)
Lemma replace_go_Forall (P : char -> Prop) (old new : str) :
  Forall P new ->
  forall (s : str) (k : nat), Forall P s -> Forall P (replace_go old new k s).
Proof.
  intros Hnew. induction s as [|c r IH]; intros k Hs; simpl; [constructor|].
  inversion Hs as [|? ? Hc Hr]; subst.
  destruct k as [|k]; [|now apply IH].
  destruct (startswith old (c :: r)).
  - apply Forall_app. split; [exact Hnew|now apply IH].
  - constructor; [exact Hc|now apply IH].
Qed.

Lemma replace_Forall (P : char -> Prop) (s old new : str) :
  Forall P new -> Forall P s -> Forall P (replace s old new).
Proof. intros. now apply replace_go_Forall. Qed.

(** Replacing the one-character string [c] leaves no [c]. *)
Lemma replace_char_gone (c : char) (new s : str) :
  ~ In c new -> ~ In c (replace s [c] new).
Proof.
  intros Hnew. unfold replace. induction s as [|x r IH]; simpl; [tauto|].
  rewrite andb_true_r.
  destruct (N.eqb_spec c x) as [->|Hne].
  - intros Hin. apply in_app_or in Hin. tauto.
  - simpl. intros [->|Hin]; [now apply Hne|tauto].
Qed.

(** A string without the first character of [old] has no occurrence of it. *)
Lemma replace_absent (a : char) (old' new s : str) :
  ~ In a s -> replace s (a :: old') new = s.
Proof.
  unfold replace. induction s as [|x r IH]; simpl; intros H; [reflexivity|].
  destruct (N.eqb_spec a x) as [->|Hne]; [tauto|].
  simpl. f_equal. tauto.
Qed.

(** [re.sub]: no two whitespace characters are left next to each other. *)
Lemma re_sub_ws2_go_adjacent (s : str) :
  (head_ws (re_sub_ws2_go [SP] true s) = false /\
   adjacent_ws (re_sub_ws2_go [SP] true s) = false) /\
  (adjacent_ws (re_sub_ws2_go [SP] false s) = false /\
   (head_ws s = false -> head_ws (re_sub_ws2_go [SP] false s) = false)).
Proof.
  induction s as [|c r [[IHt1 IHt2] [IHf1 IHf2]]]; simpl; [auto|].
  change (match r with d :: _ => isspace d | [] => false end) with (head_ws r).
  split.
  - destruct (isspace c) eqn:Ec; [auto|]. simpl.
    now rewrite Ec, IHf1.
  - destruct (isspace c) eqn:Ec; destruct (head_ws r) eqn:Er; simpl.
    + rewrite IHt1, IHt2. split; [reflexivity|discriminate].
    + rewrite Ec, (IHf2 eq_refl), IHf1. split; [reflexivity|discriminate].
    + rewrite Ec, IHf1. auto.
    + rewrite Ec, IHf1. auto.
Qed.

Lemma re_sub_ws2_adjacent (s : str) : adjacent_ws (re_sub_ws2 [SP] s) = false.
Proof. apply re_sub_ws2_go_adjacent. Qed.

(** [re.sub] finds nothing to replace where no two whitespace characters
    are adjacent. *)
Lemma re_sub_ws2_id (repl s : str) :
  adjacent_ws s = false -> re_sub_ws2 repl s = s.
Proof.
  unfold re_sub_ws2. induction s as [|c r IH]; simpl; intros H; [reflexivity|].
  apply orb_false_elim in H. destruct H as [H1 H2].
  change (match r with d :: _ => isspace d | [] => false end) with (head_ws r).
  rewrite H1. f_equal. now apply IH.
Qed.

Lemma re_sub_ws2_go_Forall (P : char -> Prop) (repl : str) :
  Forall P repl ->
  forall (s : str) (b : bool), Forall P s -> Forall P (re_sub_ws2_go repl b s).
Proof.
  intros Hrepl. induction s as [|c r IH]; intros b Hs; simpl; [constructor|].
  inversion Hs as [|? ? Hc Hr]; subst.
  destruct b.
  - destruct (isspace c); [now apply IH|constructor; [exact Hc|now apply IH]].
  - destruct (isspace c && _).
    + apply Forall_app. split; [exact Hrepl|now apply IH].
    + constructor; [exact Hc|now apply IH].
Qed.

End StringFacts.

(** The string operations on small inputs, as Python evaluates them. *)
Example strip_example :
  strip ([0x09%N; SP] ++ lit "a b" ++ [SP; LF]) = lit "a b".
Proof. reflexivity. Qed.

Example replace_crlf_example :
  replace (lit "a" ++ [CR; LF; CR; LF] ++ lit "b" ++ [CR]) [CR; LF] [SP]
  = lit "a  b" ++ [CR].
Proof. reflexivity. Qed.

Example re_sub_ws2_example :
  re_sub_ws2 [SP] (lit "a" ++ [SP; 0x09%N; SP] ++ lit "b c" ++ [0xA0%N; SP])
  = lit "a b c ".
Proof. reflexivity. Qed.

Example contains_example :
  contains (lit "natural") (ascii_lower (lit "Microsoft Natural-II")) = true /\
  contains (lit "natural") (ascii_lower (lit "Microsoft Zira")) = false /\
  contains [] (lit "Microsoft Zira") = true.
Proof. repeat split. Qed.

(* ================================================================== *)
(** * The text normalizer: what it establishes *)
(* ================================================================== *)

Section Normalizer.

Lemma normalized_nil : normalized [].
Proof. constructor; simpl; auto. Qed.

Lemma not_In_Forall (c : char) (s : str) :
  ~ In c s <-> Forall (fun x => x <> c) s.
Proof.
  rewrite Forall_forall. split.
  - intros H x Hx ->. exact (H Hx).
  - intros H Hin. exact (H c Hin eq_refl).
Qed.

(** The three [replace] calls leave neither a line feed nor a carriage
    return. *)
Lemma replaces_no_newline (s : str) :
  let u := replace (replace (replace s [CR; LF] [SP]) [LF] [SP]) [CR] [SP] in
  ~ In LF u /\ ~ In CR u.
Proof.
  simpl. split.
  - apply not_In_Forall. apply replace_Forall.
    + repeat constructor. discriminate.
    + apply not_In_Forall. apply replace_char_gone.
      simpl. intros [H|[]]. discriminate H.
  - apply replace_char_gone. simpl. intros [H|[]]. discriminate H.
Qed.

Lemma re_sub_ws2_not_In (c : char) (s : str) :
  c <> SP -> ~ In c s -> ~ In c (re_sub_ws2 [SP] s).
Proof.
  intros Hc H. apply not_In_Forall. apply re_sub_ws2_go_Forall.
  - repeat constructor. congruence.
  - now apply not_In_Forall.
Qed.

Lemma tidy_text_normalized (s : str) : normalized (tidy_text s).
Proof.
  unfold tidy_text. destruct (negb (truthy s)); [apply normalized_nil|].
  destruct (replaces_no_newline (strip s)) as [HLF HCR].
  constructor.
  - apply strip_head.
  - apply strip_last.
  - apply not_In_strip. apply re_sub_ws2_not_In; [discriminate|exact HLF].
  - apply not_In_strip. apply re_sub_ws2_not_In; [discriminate|exact HCR].
  - apply adjacent_ws_strip. apply re_sub_ws2_adjacent.
Qed.

(** A normalized string goes through every stage unchanged. *)
Lemma tidy_text_fixpoint (t : str) : normalized t -> tidy_text t = t.
Proof.
  intros [Hh Hl HLF HCR Ha]. unfold tidy_text.
  destruct t as [|c r]; [reflexivity|]. cbn [truthy negb].
  rewrite (strip_id _ Hh Hl).
  rewrite (replace_absent CR [LF] [SP] _ HCR).
  rewrite (replace_absent LF [] [SP] _ HLF).
  rewrite (replace_absent CR [] [SP] _ HCR).
  rewrite (re_sub_ws2_id _ _ Ha).
  now apply strip_id.
Qed.

Lemma normalized_leading (t : str) (c : char) (r : str) :
  normalized t -> t = c :: r -> isspace c = false.
Proof. intros [Hh _ _ _ _] ->. exact Hh. Qed.

Lemma normalized_trailing (t l : str) (c : char) :
  normalized t -> t = l ++ [c] -> isspace c = false.
Proof.
  intros [_ Hl _ _ _] ->. rewrite rev_app_distr in Hl. exact Hl.
Qed.

Lemma normalized_no_run (t l1 l2 : str) (a b : char) :
  normalized t -> t = l1 ++ a :: b :: l2 -> isspace a && isspace b = false.
Proof.
  intros [_ _ _ _ Ha] ->.
  destruct (isspace a) eqn:Ea; destruct (isspace b) eqn:Eb; try reflexivity.
  now rewrite adjacent_ws_at in Ha.
Qed.

(** The end-to-end scenario of the specification. *)
Example tidy_text_hello :
  tidy_text (lit "Hello" ++ [CR; LF] ++ lit "World   !") = lit "Hello World !".
Proof. reflexivity. Qed.

(** A lone whitespace character that is no line feed or carriage return
    stays as it is: only runs of two or more become a space. *)
Example tidy_text_tab :
  tidy_text (lit "a" ++ [0x09%N] ++ lit "b") = lit "a" ++ [0x09%N] ++ lit "b".
Proof. reflexivity. Qed.

(** C8. The normalizer is idempotent: normalizing the result of the
    normalizer gives that result back, for every input string. *)
Theorem tidy_text_idempotent (s : str) :
  tidy_text (tidy_text s) = tidy_text s.
Proof. apply tidy_text_fixpoint. apply tidy_text_normalized. Qed.

End Normalizer.

(* ================================================================== *)
(** * The clipboard watcher: what it returns *)
(* ================================================================== *)

Section WatcherFacts.

Lemma eqb_eq (a b : str) : PyStr.eqb a b = true <-> a = b.
Proof.
  revert b. induction a as [|x a IH]; destruct b as [|y b]; simpl;
    try (split; [discriminate|discriminate]); [tauto|].
  rewrite andb_true_iff, N.eqb_eq, IH. split.
  - intros [-> ->]. reflexivity.
  - intros E. injection E as -> ->. auto.
Qed.

Lemma changed_iff (o : option str) (baseline : str) :
  changed o baseline = true <-> is_change baseline o.
Proof.
  unfold changed, is_change. destruct o as [c|].
  - rewrite andb_true_iff, negb_true_iff. split.
    + intros [Ht Hne]. exists c. repeat split.
      * destruct c; [discriminate|discriminate].
      * intros ->. assert (PyStr.eqb baseline baseline = true) as E
          by now apply eqb_eq. congruence.
    + intros (c' & E & Hc & Hne). injection E as <-. split.
      * destruct c; [congruence|reflexivity].
      * destruct (PyStr.eqb c baseline) eqn:E; [|reflexivity].
        apply eqb_eq in E. contradiction.
  - split; [discriminate|]. intros (c & E & _). discriminate.
Qed.

(** No exception leaves [get_clipboard_text]. *)
Lemma get_clipboard_text_total (os : clipboard_os) :
  exists o, get_clipboard_text os = Ok o.
Proof.
  destruct os as [[[]|e1] [[|]|e2] [[s|]|e3] [[]|e4]];
    unfold get_clipboard_text, try_finally, try_except, bind, call, modify, ret;
    simpl; eauto.
Qed.

(** A read one of whose calls raises gives no text. *)
Lemma get_clipboard_text_fails (os : clipboard_os) :
  read_fails os -> get_clipboard_text os = Ok None.
Proof.
  unfold read_fails.
  destruct os as [[[]|e1] [[|]|e2] [[s|]|e3] [[]|e4]];
    unfold get_clipboard_text, try_finally, try_except, bind, call, modify, ret;
    simpl; intros [[e H]|[[e H]|[e H]]]; try discriminate H; reflexivity.
Qed.

Example get_clipboard_text_locked :
  get_clipboard_text clipboard_locked = Ok None /\
  get_clipboard_text (clipboard_holding (lit "Hello")) = Ok (Some (lit "Hello")).
Proof. split; reflexivity. Qed.

Lemma get_clipboard_text_sample {time : Type} (w : world time) (k : nat) :
  get_clipboard_text (clipboard w k) = Ok (sample w k).
Proof.
  unfold sample. destruct (get_clipboard_text_total (clipboard w k)) as [o E].
  now rewrite E.
Qed.

Variable time : Type.
Variable tsub : time -> time -> time.
Variable tlt : time -> time -> bool.
Variable w : world time.
Variable baseline : str.
Variable timeout_s : time.

(** Polls that see no change within the timeout are passed over. *)
Lemma wait_loop_skip (n : nat) :
  forall k fuel,
    (forall i, k <= i < k + n ->
       within tsub tlt w timeout_s i = true /\ ~ is_change baseline (sample w i)) ->
    wait_loop tsub tlt w baseline timeout_s (time_time w 0) (n + fuel) k =
    wait_loop tsub tlt w baseline timeout_s (time_time w 0) fuel (k + n).
Proof.
  induction n as [|n IH]; intros k fuel H.
  - now rewrite Nat.add_0_r.
  - destruct (H k ltac:(lia)) as [Hw Hc].
    cbn [Nat.add wait_loop]. unfold within in Hw. rewrite Hw.
    rewrite get_clipboard_text_sample.
    destruct (changed (sample w k) baseline) eqn:E.
    + apply changed_iff in E. contradiction.
    + rewrite IH.
      * f_equal. lia.
      * intros i Hi. apply H. lia.
Qed.

Lemma wait_loop_never_raises (fuel : nat) :
  forall k start e,
    wait_loop tsub tlt w baseline timeout_s start fuel k <> Some (Raise e).
Proof.
  induction fuel as [|fuel IH]; intros k start e; simpl; [discriminate|].
  destruct (tlt _ _); [|discriminate].
  rewrite get_clipboard_text_sample.
  destruct (changed _ _); [discriminate|apply IH].
Qed.

End WatcherFacts.

(** C1. Let the polls before the [n]-th observe, within the timeout, no value
    that is non-empty and different from the baseline.  If the [n]-th poll
    observes such a value within the timeout, the watcher returns it; if the
    timeout has elapsed at the [n]-th turn, the watcher returns no result.
    No clipboard read raises, a read one of whose calls fails observes no
    text, and the watcher itself never raises. *)
Theorem wait_for_clip_change_first_change
    (time : Type) (tsub : time -> time -> time) (tlt : time -> time -> bool)
    (w : world time) (B : str) (T : time) (n fuel : nat) :
  (forall k, k < n ->
     within tsub tlt w T k = true /\ ~ is_change B (sample w k)) ->
  n < fuel ->
  (forall c, within tsub tlt w T n = true ->
     sample w n = Some c -> c <> [] -> c <> B ->
     wait_for_clip_change tsub tlt w B T fuel = Some (Ok (Some c))) /\
  (within tsub tlt w T n = false ->
     wait_for_clip_change tsub tlt w B T fuel = Some (Ok None)) /\
  (forall k, exists o, get_clipboard_text (clipboard w k) = Ok o) /\
  (forall k, read_fails (clipboard w k) ->
     get_clipboard_text (clipboard w k) = Ok None /\ ~ is_change B (sample w k)) /\
  (forall e, wait_for_clip_change tsub tlt w B T fuel <> Some (Raise e)).
Proof.
  intros Hbefore Hfuel.
  assert (wait_for_clip_change tsub tlt w B T fuel =
          wait_loop tsub tlt w B T (time_time w 0) (fuel - n) n) as Hskip.
  { unfold wait_for_clip_change.
    replace fuel with (n + (fuel - n)) at 1 by lia.
    rewrite wait_loop_skip; [reflexivity|].
    intros i Hi. apply Hbefore. lia. }
  destruct (fuel - n) as [|f] eqn:Ef; [lia|].
  repeat split.
  - intros c Hw Hs Hc HB. rewrite Hskip. cbn [wait_loop].
    unfold within in Hw. rewrite Hw, get_clipboard_text_sample.
    assert (changed (sample w n) B = true) as E.
    { apply changed_iff. exists c. auto. }
    now rewrite E, Hs.
  - intros Hw. rewrite Hskip. cbn [wait_loop].
    unfold within in Hw. now rewrite Hw.
  - intros k. apply get_clipboard_text_total.
  - now apply get_clipboard_text_fails.
  - unfold sample. rewrite get_clipboard_text_fails by assumption.
    intros (c & E & _). discriminate E.
  - intros e. apply wait_loop_never_raises.
Qed.

(** The watcher in [demo_world], with baseline "old" and a timeout of 1.5 s:
    two polls see the baseline, one finds the clipboard locked, the fourth
    returns "Hello". *)
Lemma wait_for_clip_change_first_change_witness :
  wait_for_clip_change Z.sub Z.ltb demo_world (lit "old") 1500%Z 200
  = Some (Ok (Some (lit "Hello"))).
Proof.
  refine (proj1 (wait_for_clip_change_first_change Z Z.sub Z.ltb demo_world
                   (lit "old") 1500%Z 3 200 _ _) (lit "Hello") _ _ _ _).
  - intros k Hk.
    destruct k as [|[|[|k]]]; [| | |lia]; (split; [reflexivity|]);
      intros (c & E & Hc & Hne); vm_compute in E;
      try discriminate E; injection E as <-; now apply Hne.
  - lia.
  - reflexivity.
  - reflexivity.
  - discriminate.
  - discriminate.
Defined.

(** With a baseline that the clipboard never leaves, the same watcher gives
    up when the timeout has elapsed. *)
Example wait_for_clip_change_timeout :
  wait_for_clip_change Z.sub Z.ltb
    {| time_time := fun k => (100 * Z.of_nat k)%Z;
       clipboard := fun _ => clipboard_holding (lit "old") |}
    (lit "old") 1500%Z 200
  = Some (Ok None).
Proof. reflexivity. Qed.

(* ================================================================== *)
(** * The speech worker: its steps *)
(* ================================================================== *)

Section Frames.

Context {X : Type} (f : state -> X).

Lemma frames_ret {A} (a : A) : frames f (ret a).
Proof. intros st. reflexivity. Qed.

Lemma frames_call {A} (r : result A) : frames f (call r).
Proof. intros st. reflexivity. Qed.

Lemma frames_modify (g : state -> state) :
  (forall st, f (g st) = f st) -> frames f (modify g).
Proof. intros H st. apply H. Qed.

Lemma frames_bind {A B} (c : M state A) (k : A -> M state B) :
  frames f c -> (forall a, frames f (k a)) -> frames f (bind c k).
Proof.
  intros Hc Hk st. unfold bind. specialize (Hc st).
  destruct (c st) as [[a|e] st']; simpl in *.
  - now rewrite Hk.
  - exact Hc.
Qed.

Lemma frames_try_except {A} (c : M state A) (h : exn -> M state A) :
  frames f c -> (forall e, frames f (h e)) -> frames f (try_except c h).
Proof.
  intros Hc Hh st. unfold try_except. specialize (Hc st).
  destruct (c st) as [[a|e] st']; simpl in *.
  - exact Hc.
  - now rewrite Hh.
Qed.

Lemma frames_select_first (lower : str -> str) (os : sapi) (m : str)
    (idxs : list nat) :
  frames f (select_first lower os m idxs).
Proof.
  induction idxs as [|i rest IH]; simpl.
  - apply frames_ret.
  - apply frames_bind; [apply frames_call|intros _].
    apply frames_bind; [apply frames_call|intros desc].
    destruct (truthy m && contains m (lower desc)); [apply frames_ret|exact IH].
Qed.

End Frames.

Create HintDb frames.

#[local] Hint Resolve frames_ret frames_call frames_select_first : frames.

Ltac frames_step :=
  first [ apply frames_bind; [|intro]
        | apply frames_try_except; [|intro]
        | apply frames_modify; intros []; reflexivity
        | solve [auto with frames]
        | match goal with
          | |- frames _ (match ?x with _ => _ end) => destruct x
          end ].

Section WorkerSteps.

Variable lower : str -> str.
Variable os : sapi.

(** The start-up touches neither the queue nor the record of the calls of
    [Speak], whatever the engine does. *)
Lemma _run_startup_frames_q (m : str) : frames _q (_run_startup lower os m).
Proof.
  unfold _run_startup, assign_Voice, assign_Rate, assign_Volume, print.
  repeat frames_step.
Qed.

Lemma _run_startup_frames_spoken (m : str) :
  frames spoken (_run_startup lower os m).
Proof.
  unfold _run_startup, assign_Voice, assign_Rate, assign_Volume, print.
  repeat frames_step.
Qed.

Lemma _run_finally_frames {X} (f : state -> X) :
  (forall b st, f (set_com b st) = f st) -> frames f (_run_finally os).
Proof.
  intros H. unfold _run_finally.
  apply frames_bind; [apply frames_call|intros _].
  apply frames_modify. apply H.
Qed.

(** One turn of the loop never raises, and what it leaves behind does not
    depend on what [Speak] did. *)
Lemma _run_iteration_eq (st : state) :
  _run_iteration os st = (Ok tt, after_turn st).
Proof.
  unfold _run_iteration, after_turn, bind, try_except_Empty, try_except,
    q_get, do_Speak, ret.
  destruct (_q st) as [|txt rest]; [reflexivity|].
  cbn [spoken set_q].
  destruct (Speak os _ txt) as [[]|e]; reflexivity.
Qed.

Lemma _run_Draining (self : SapiNaturalSpeaker) :
  _thr self = Draining ->
  _run lower os self =
  {| _match := _match self; _thr := Draining; mem := after_turn (mem self) |}.
Proof.
  intros H. unfold _run, in_try. rewrite H, _run_iteration_eq. reflexivity.
Qed.

Lemma _run_Terminated (self : SapiNaturalSpeaker) (e : exn) :
  _thr self = Terminated e -> _run lower os self = self.
Proof. intros H. unfold _run. now rewrite H. Qed.

Lemma in_try_frames {X} (f : state -> X) (c : M state unit) :
  (forall b st, f (set_com b st) = f st) -> frames f c ->
  forall st, f (snd (in_try os c st)) = f st.
Proof.
  intros Hcom Hc st. unfold in_try. specialize (Hc st).
  destruct (c st) as [[[]|e] st']; simpl in *; [exact Hc|].
  pose proof (_run_finally_frames f Hcom st') as Hf.
  destruct (_run_finally os st') as [[[]|e'] st'']; simpl in *; congruence.
Qed.

(** The first step of the thread, whatever its outcome, touches neither the
    queue nor the record of the calls of [Speak]. *)
Lemma _run_Initializing_frames (self : SapiNaturalSpeaker) :
  _thr self = Initializing ->
  _q (mem (_run lower os self)) = _q (mem self) /\
  spoken (mem (_run lower os self)) = spoken (mem self).
Proof.
  intros H. unfold _run. rewrite H. unfold bind, call, modify.
  destruct (CoInitialize os) as [[]|e]; simpl; [|auto].
  split.
  - rewrite in_try_frames; auto using _run_startup_frames_q.
  - rewrite in_try_frames; auto using _run_startup_frames_spoken.
Qed.

Lemma _run_match (self : SapiNaturalSpeaker) :
  _match (_run lower os self) = _match self.
Proof. unfold _run. destruct (_thr self); [|reflexivity..].
  destruct (bind _ _ _) as [[[]|e] st]; reflexivity.
Qed.

End WorkerSteps.

(* ================================================================== *)
(** * The speech worker: the queue *)
(* ================================================================== *)

Section Queue.

Variable lower : str -> str.
Variable os : sapi.

Lemma speak_eq (text : str) (self : SapiNaturalSpeaker) :
  speak text self =
  if MIN_CHARS_TO_SPEAK <=? List.length text then
    {| _match := _match self; _thr := _thr self;
       mem := set_q (_q (mem self) ++ [text]) (mem self) |}
  else self.
Proof.
  unfold speak. destruct text as [|c r]; reflexivity.
Qed.

Lemma after_turn_conserves (st : state) :
  spoken (after_turn st) ++ _q (after_turn st) = spoken st ++ _q st.
Proof.
  unfold after_turn. destruct st as [q v r vo sp out c]; simpl.
  destruct q as [|txt rest]; simpl; [reflexivity|].
  now rewrite <- app_assoc.
Qed.

(** A step moves texts from the queue to [Speak] and adds what is accepted
    to the queue; nothing is lost, repeated or reordered. *)
Lemma step_conserves (self : SapiNaturalSpeaker) (ev : event) :
  spoken (mem (step lower os self ev)) ++ _q (mem (step lower os self ev)) =
  (spoken (mem self) ++ _q (mem self)) ++ accepted (submitted [ev]).
Proof.
  destruct ev as [text|]; cbn [step].
  - rewrite speak_eq. unfold accepted. cbn [submitted filter].
    destruct (MIN_CHARS_TO_SPEAK <=? List.length text).
    + cbn [mem]. destruct (mem self) as [q v r vo sp out c].
      cbn [set_q _q spoken]. now rewrite app_assoc.
    + now rewrite app_nil_r.
  - cbn [submitted accepted filter]. rewrite app_nil_r.
    destruct (_thr self) eqn:E.
    + destruct (_run_Initializing_frames lower os self E) as [-> ->].
      reflexivity.
    + rewrite (_run_Draining lower os self E). simpl.
      apply after_turn_conserves.
    + now rewrite (_run_Terminated lower os self e E).
Qed.

Lemma submitted_app (evs1 evs2 : list event) :
  submitted (evs1 ++ evs2) = submitted evs1 ++ submitted evs2.
Proof.
  induction evs1 as [|[text|] evs1 IH]; simpl; [reflexivity| |exact IH].
  now rewrite IH.
Qed.

Lemma accepted_app (l1 l2 : list str) :
  accepted (l1 ++ l2) = accepted l1 ++ accepted l2.
Proof. apply filter_app. Qed.

Lemma exec_conserves (evs : list event) :
  forall self,
    spoken (mem (exec lower os evs self)) ++ _q (mem (exec lower os evs self)) =
    (spoken (mem self) ++ _q (mem self)) ++ accepted (submitted evs).
Proof.
  induction evs as [|ev evs IH]; intros self.
  - simpl. now rewrite app_nil_r.
  - change (exec lower os (ev :: evs) self)
      with (exec lower os evs (step lower os self ev)).
    rewrite IH, step_conserves.
    change (ev :: evs) with ([ev] ++ evs).
    now rewrite submitted_app, accepted_app, app_assoc.
Qed.

Lemma exec_app (evs1 evs2 : list event) (self : SapiNaturalSpeaker) :
  exec lower os (evs1 ++ evs2) self =
  exec lower os evs2 (exec lower os evs1 self).
Proof. apply fold_left_app. Qed.

Lemma accepted_long_enough (texts : list str) :
  Forall long_enough (accepted texts).
Proof.
  apply Forall_forall. intros t Ht. apply filter_In in Ht.
  destruct Ht as [_ Ht]. now apply Nat.leb_le in Ht.
Qed.

Lemma accepted_all (texts : list str) :
  Forall long_enough texts -> accepted texts = texts.
Proof.
  induction 1 as [|t l Ht _ IH]; [reflexivity|].
  unfold accepted. cbn [filter]. unfold long_enough in Ht.
  apply Nat.leb_le in Ht. rewrite Ht. f_equal. exact IH.
Qed.

(** In its loop, the worker empties a queue of [n] texts in [n] turns. *)
Lemma drain_Draining (k : nat) :
  forall self,
    _thr self = Draining -> List.length (_q (mem self)) <= k ->
    let self' := exec lower os (repeat Tick k) self in
    _thr self' = Draining /\ _q (mem self') = [] /\
    spoken (mem self') = spoken (mem self) ++ _q (mem self).
Proof.
  induction k as [|k IH]; intros self Hd Hk.
  - simpl. destruct (_q (mem self)); [|simpl in Hk; lia].
    now rewrite app_nil_r.
  - change (exec lower os (repeat Tick (S k)) self)
      with (exec lower os (repeat Tick k) (_run lower os self)).
    rewrite (_run_Draining lower os self Hd).
    set (next := {| _match := _match self; _thr := Draining;
                    mem := after_turn (mem self) |}).
    assert (List.length (_q (mem next)) <= k) as Hlen.
    { subst next. simpl. unfold after_turn.
      destruct (mem self) as [q v r vo sp out c]; simpl in *.
      destruct q as [|txt rest]; simpl in *; lia. }
    destruct (IH next eq_refl Hlen) as (H1 & H2 & H3).
    cbv zeta. rewrite H1, H2, H3. repeat split.
    subst next. simpl. unfold after_turn.
    destruct (mem self) as [q v r vo sp out c]; simpl.
    destruct q as [|txt rest]; simpl; [reflexivity|].
    now rewrite <- app_assoc.
Qed.

End Queue.

(* ================================================================== *)
(** * The speech worker: its start-up *)
(* ================================================================== *)

Section Startup.

Variable lower : str -> str.
Variable os : sapi.
Variable descs : list str.
Hypothesis Henum : enumerates os descs.

Lemma enumerated_at (pre rest : list str) (d : str) :
  descs = pre ++ d :: rest ->
  Item os (List.length pre) = Ok tt /\
  GetDescription os (List.length pre) = Ok d.
Proof.
  intros E. split.
  - apply (enum_Item _ _ Henum). rewrite E, length_app. simpl. lia.
  - apply (enum_GetDescription _ _ Henum).
    rewrite E, nth_error_app2, Nat.sub_diag by lia. reflexivity.
Qed.

(** The [for] loop over an engine that enumerates [descs] raises nothing
    and leaves the state as it is. *)
Lemma select_first_ok (mm : str) (st : state) (rest : list str) :
  forall pre, descs = pre ++ rest ->
    exists sel,
      select_first lower os mm (seq (List.length pre) (List.length rest)) st
      = (Ok sel, st).
Proof.
  induction rest as [|d rest IH]; intros pre E.
  - exists None. reflexivity.
  - destruct (enumerated_at pre rest d E) as [HI HD].
    cbn [List.length seq select_first]. unfold bind at 1 2, call.
    rewrite HI, HD.
    destruct (truthy mm && contains mm (lower d)).
    + eexists. reflexivity.
    + specialize (IH (pre ++ [d])). rewrite length_app, Nat.add_1_r in IH.
      apply IH. now rewrite <- app_assoc.
Qed.

(** With a non-empty match string it finds the first description that
    contains it. *)
Lemma select_first_value (m0 : str) (st : state) (rest : list str) :
  truthy (lower m0) = true ->
  forall pre, descs = pre ++ rest ->
    select_first lower os (lower m0)
      (seq (List.length pre) (List.length rest)) st
    = (Ok (first_containing_from lower m0 rest (List.length pre)), st).
Proof.
  intros Ht. induction rest as [|d rest IH]; intros pre E.
  - reflexivity.
  - destruct (enumerated_at pre rest d E) as [HI HD].
    cbn [List.length seq select_first first_containing_from].
    unfold bind at 1 2, call. rewrite HI, HD, Ht. cbn [andb].
    destruct (contains (lower m0) (lower d)); [reflexivity|].
    specialize (IH (pre ++ [d])). rewrite length_app, Nat.add_1_r in IH.
    apply IH. now rewrite <- app_assoc.
Qed.

Hypothesis Hstart : startup_succeeds os descs.

(** When service initialization and voice enumeration and selection raise
    nothing, the start-up returns, whatever the rate and volume calls do. *)
Lemma _run_startup_ok (mm : str) (st : state) :
  exists sel st',
    select_first lower os mm (seq 0 (List.length descs)) st = (Ok sel, st) /\
    _run_startup lower os mm st = (Ok tt, st') /\
    Voice st' = match sel with Some i => Some i | None => Voice st end /\
    (Rate st', Volume st') =
      match put_Rate os SAPI_RATE, put_Volume os SAPI_VOLUME with
      | Raise _, _ => (Rate st, Volume st)
      | Ok _, Raise _ => (Some SAPI_RATE, Volume st)
      | Ok _, Ok _ => (Some SAPI_RATE, Some SAPI_VOLUME)
      end.
Proof.
  destruct (select_first_ok mm st descs [] eq_refl) as [sel Hsel].
  cbn [List.length] in Hsel.
  destruct Hstart as [_ HD HG _ HV [d Hd]].
  exists sel. unfold _run_startup, bind, call.
  rewrite HD, HG, (enum_Count _ _ Henum). fold (@bind state).
  unfold bind. rewrite Hsel.
  unfold assign_Voice, assign_Rate, assign_Volume, print, try_except,
    bind, call, modify, ret.
  destruct sel as [i|].
  - rewrite HV, Hd.
    destruct (put_Rate os SAPI_RATE) as [[]|e1];
      destruct (put_Volume os SAPI_VOLUME) as [[]|e2];
      eexists; repeat split.
  - destruct (put_Rate os SAPI_RATE) as [[]|e1];
      destruct (put_Volume os SAPI_VOLUME) as [[]|e2];
      eexists; repeat split.
Qed.

(** The first step of the thread then takes it into its loop. *)
Lemma _run_Initializing_ok (self : SapiNaturalSpeaker) :
  _thr self = Initializing ->
  exists sel st',
    select_first lower os (_match self) (seq 0 (List.length descs))
      (set_com true (mem self)) = (Ok sel, set_com true (mem self)) /\
    _run lower os self =
      {| _match := _match self; _thr := Draining; mem := st' |} /\
    Voice st' = match sel with Some i => Some i | None => Voice (mem self) end /\
    (Rate st', Volume st') =
      match put_Rate os SAPI_RATE, put_Volume os SAPI_VOLUME with
      | Raise _, _ => (Rate (mem self), Volume (mem self))
      | Ok _, Raise _ => (Some SAPI_RATE, Volume (mem self))
      | Ok _, Ok _ => (Some SAPI_RATE, Some SAPI_VOLUME)
      end.
Proof.
  intros Hi.
  destruct (_run_startup_ok (_match self) (set_com true (mem self)))
    as (sel & st' & Hsel & Hrun & HV & HT).
  exists sel, st'. split; [exact Hsel|].
  unfold _run, in_try. rewrite Hi. unfold bind at 1, call, modify.
  rewrite (su_CoInitialize _ _ Hstart), Hrun. cbn [fst snd].
  destruct (mem self); auto.
Qed.

Lemma step_alive (self : SapiNaturalSpeaker) (ev : event) :
  alive self -> alive (step lower os self ev).
Proof.
  intros Ha. destruct ev as [text|]; cbn [step].
  - rewrite speak_eq. destruct (_ <=? _); exact Ha.
  - right. destruct Ha as [Hi|Hd].
    + destruct (_run_Initializing_ok self Hi) as (? & ? & _ & -> & _).
      reflexivity.
    + now rewrite (_run_Draining lower os self Hd).
Qed.

Lemma exec_alive (evs : list event) :
  forall self, alive self -> alive (exec lower os evs self).
Proof.
  induction evs as [|ev evs IH]; intros self Ha; [exact Ha|].
  apply (IH (step lower os self ev)). now apply step_alive.
Qed.

(** Once the worker thread has taken a step, it is in its loop for good. *)
Lemma exec_Draining (evs : list event) :
  forall self, _thr self = Draining -> _thr (exec lower os evs self) = Draining.
Proof.
  induction evs as [|ev evs IH]; intros self Hd; [exact Hd|].
  apply (IH (step lower os self ev)).
  destruct ev as [text|]; cbn [step].
  - rewrite speak_eq. destruct (_ <=? _); exact Hd.
  - now rewrite (_run_Draining lower os self Hd).
Qed.

End Startup.

(* ================================================================== *)
(** * The substitute engine and [ascii_lower] *)
(* ================================================================== *)

Lemma engine_startup_succeeds (descs : list str) (tuning : result unit)
    (speaking : nat -> result unit) :
  startup_succeeds (engine descs tuning speaking) descs.
Proof.
  constructor; simpl; try reflexivity.
  - constructor; simpl; try reflexivity.
    intros i d E. now rewrite E.
  - now exists [].
Qed.

Lemma ascii_lower_python : python_lower ascii_lower.
Proof.
  constructor.
  - reflexivity.
  - intros [|c r] H; [contradiction|discriminate].
Qed.

(* ================================================================== *)
(** * The speech worker: submitting and speaking *)
(* ================================================================== *)

(** C6. [speak text] puts [text] at the end of the queue when [text] has at
    least [MIN_CHARS_TO_SPEAK] characters and changes nothing otherwise; so,
    whatever is submitted and however the two threads interleave, every text
    passed to the engine's [Speak] meets the threshold. *)
Theorem speak_threshold (text : str) (self : SapiNaturalSpeaker) :
  (long_enough text ->
   speak text self =
   {| _match := _match self; _thr := _thr self;
      mem := set_q (_q (mem self) ++ [text]) (mem self) |}) /\
  (~ long_enough text -> speak text self = self) /\
  (forall (lower : str -> str) (os : sapi) (m : option str) (evs : list event),
     Forall long_enough (spoken (mem (exec lower os evs (__init__ lower m))))).
Proof.
  unfold long_enough. repeat split.
  - intros H. rewrite speak_eq. apply Nat.leb_le in H. now rewrite H.
  - intros H. rewrite speak_eq. apply Nat.leb_nle in H. now rewrite H.
  - intros lower os m evs.
    pose proof (exec_conserves lower os evs (__init__ lower m)) as E.
    cbn [__init__ mem fresh spoken _q app] in E.
    pose proof (accepted_long_enough (submitted evs)) as H.
    rewrite <- E in H. apply Forall_app in H. apply H.
Qed.

(** C5. When the worker, in its loop, takes [txt] from the queue and the
    engine's [Speak] raises on it, the turn of the loop raises nothing: the
    thread stays in its loop, [txt] has left the queue, the call is on the
    engine's record, and the voice, rate, volume, console and COM state are
    as before; the next turn passes the next queued text to [Speak]. *)
Theorem speak_failure_discarded (lower : str -> str) (os : sapi)
    (self : SapiNaturalSpeaker) (txt : str) (rest : list str) (e : exn) :
  _thr self = Draining ->
  _q (mem self) = txt :: rest ->
  Speak os (List.length (spoken (mem self))) txt = Raise e ->
  let self' := _run lower os self in
  fst (do_Speak os txt (set_q rest (mem self))) = Raise e /\
  _run_iteration os (mem self) = (Ok tt, mem self') /\
  _thr self' = Draining /\
  _match self' = _match self /\
  _q (mem self') = rest /\
  spoken (mem self') = spoken (mem self) ++ [txt] /\
  Voice (mem self') = Voice (mem self) /\
  Rate (mem self') = Rate (mem self) /\
  Volume (mem self') = Volume (mem self) /\
  stdout (mem self') = stdout (mem self) /\
  com (mem self') = com (mem self) /\
  (forall txt2 rest2, rest = txt2 :: rest2 ->
     spoken (mem (_run lower os self')) = spoken (mem self) ++ [txt; txt2] /\
     _q (mem (_run lower os self')) = rest2).
Proof.
  intros Hd Hq He self'. subst self'.
  rewrite (_run_Draining lower os self Hd), _run_iteration_eq.
  cbn [_thr _match mem]. unfold after_turn at 1 2 3 4 5 6 7 8. rewrite Hq.
  destruct (mem self) as [q v r vo sp out c] eqn:Em.
  cbn in Hq, He |- *. subst q.
  repeat match goal with |- _ /\ _ => split end; try assumption; try reflexivity.
  intros txt2 rest2 ->. unfold in_try. rewrite _run_iteration_eq. cbn.
  now rewrite <- app_assoc.
Qed.

(** A queue of two texts and an engine whose [Speak] always raises. *)
Lemma speak_failure_discarded_witness :
  let os := engine example_voices (Ok tt) (fun _ => Raise (Error "SAPI")) in
  let self := {| _match := NATURAL_MATCH_SUBSTR; _thr := Draining;
                 mem := set_q [lit "Hello World !"; lit "again"] fresh |} in
  _thr (_run ascii_lower os self) = Draining /\
  spoken (mem (_run ascii_lower os (_run ascii_lower os self)))
  = [lit "Hello World !"; lit "again"].
Proof.
  intros os self.
  pose proof (speak_failure_discarded ascii_lower os self
                (lit "Hello World !") [lit "again"] (Error "SAPI")
                eq_refl eq_refl eq_refl) as H.
  cbv zeta in H. split.
  - apply H.
  - apply (proj2 (proj2 (proj2 (proj2 (proj2 (proj2 (proj2 (proj2
             (proj2 (proj2 (proj2 H))))))))))
             (lit "again") [] eq_refl).
Defined.

(** C7. Let the worker's start-up succeed, and let the main thread submit
    the texts [texts], each meeting the threshold, in this order, the two
    threads interleaving in any way and [Speak] returning or raising as it
    likes.  At every moment the texts passed to [Speak] so far are an initial
    segment of [texts]; and once the worker has taken [length texts + 1]
    further steps, the calls of [Speak] are exactly [texts], in order. *)
Theorem speak_in_submission_order (lower : str -> str) (os : sapi)
    (descs : list str) (m : option str) (texts : list str)
    (evs : list event) (k : nat) :
  startup_succeeds os descs ->
  Forall long_enough texts ->
  submitted evs = texts ->
  List.length texts < k ->
  let self := exec lower os (evs ++ repeat Tick k) (__init__ lower m) in
  spoken (mem self) = texts /\
  _q (mem self) = [] /\
  (forall evs1 evs2, evs ++ repeat Tick k = evs1 ++ evs2 ->
     exists rest,
       texts = spoken (mem (exec lower os evs1 (__init__ lower m))) ++ rest).
Proof.
  intros Hstart Hlong Hsub Hk self.
  assert (submitted (repeat Tick k) = []) as Hticks.
  { clear. induction k; simpl; auto. }
  set (s0 := exec lower os evs (__init__ lower m)).
  assert (spoken (mem s0) ++ _q (mem s0) = texts) as Hs0.
  { subst s0. rewrite exec_conserves. cbn [__init__ mem fresh spoken _q app].
    now rewrite Hsub, accepted_all. }
  assert (alive s0) as Ha.
  { subst s0. apply (exec_alive lower os descs (su_enumerates _ _ Hstart) Hstart).
    now left. }
  assert (List.length (_q (mem s0)) <= List.length texts) as Hlen.
  { rewrite <- Hs0, length_app. lia. }
  assert (spoken (mem self) = texts /\ _q (mem self) = []) as [H1 H2].
  { subst self. rewrite exec_app. fold s0.
    destruct Ha as [Hi|Hd].
    - destruct k as [|k]; [lia|].
      change (exec lower os (repeat Tick (S k)) s0)
        with (exec lower os (repeat Tick k) (_run lower os s0)).
      destruct (_run_Initializing_frames lower os s0 Hi) as [Eq Es].
      destruct (_run_Initializing_ok lower os descs
                  (su_enumerates _ _ Hstart) Hstart s0 Hi)
        as (sel & st' & _ & Erun & _).
      assert (_thr (_run lower os s0) = Draining) as Hd by now rewrite Erun.
      destruct (drain_Draining lower os k (_run lower os s0) Hd) as (_ & Hq & Hs).
      { rewrite Eq. lia. }
      rewrite Hq, Hs, Eq, Es. auto.
    - destruct (drain_Draining lower os k s0 Hd) as (_ & Hq & Hs); [lia|].
      rewrite Hq, Hs. auto. }
  repeat split; [exact H1|exact H2|].
  intros evs1 evs2 E.
  pose proof (exec_conserves lower os evs1 (__init__ lower m)) as E1.
  cbn [__init__ mem fresh spoken _q app] in E1.
  assert (texts = accepted (submitted evs1) ++ accepted (submitted evs2)) as Et.
  { rewrite <- accepted_app, <- submitted_app, <- E, submitted_app, Hticks,
      app_nil_r, Hsub. symmetry. now apply accepted_all. }
  exists (_q (mem (exec lower os evs1 (__init__ lower m)))
          ++ accepted (submitted evs2)).
  now rewrite app_assoc, E1.
Qed.

(** Three texts submitted while the worker starts and speaks, on an engine
    whose every second [Speak] raises. *)
Lemma speak_in_submission_order_witness :
  spoken (mem (exec ascii_lower
                 (engine example_voices (Ok tt)
                    (fun n => if Nat.even n then Ok tt else Raise (Error "SAPI")))
                 ([Submit (lit "one"); Tick; Submit (lit "two");
                   Submit (lit "three"); Tick] ++ repeat Tick 4)
                 (__init__ ascii_lower (Some NATURAL_MATCH_SUBSTR))))
  = [lit "one"; lit "two"; lit "three"].
Proof.
  refine (proj1 (speak_in_submission_order ascii_lower _ example_voices
                   (Some NATURAL_MATCH_SUBSTR)
                   [lit "one"; lit "two"; lit "three"] _ 4 _ _ _ _)).
  - apply engine_startup_succeeds.
  - repeat constructor.
  - reflexivity.
  - simpl. lia.
Defined.

(* ================================================================== *)
(** * Voice selection *)
(* ================================================================== *)

Section Selection.

Variable lower : str -> str.
Variable m : str.

(** [first_containing] finds a description that contains the match string
    and that no such description precedes. *)
Lemma first_containing_from_Some (descs : list str) :
  forall i0 i,
    first_containing_from lower m descs i0 = Some i <->
    exists pre d rest,
      descs = pre ++ d :: rest /\ i = i0 + List.length pre /\
      hit lower m d = true /\ Forall (fun d' => hit lower m d' = false) pre.
Proof.
  unfold hit. induction descs as [|d0 descs IH]; intros i0 i; simpl.
  - split; [discriminate|]. intros (pre & d & rest & E & _).
    destruct pre; discriminate.
  - destruct (contains (lower m) (lower d0)) eqn:E0.
    + split.
      * intros [= <-]. exists [], d0, descs. simpl.
        rewrite Nat.add_0_r. auto.
      * intros (pre & d & rest & E & -> & Hd & Hpre).
        destruct pre as [|p pre]; simpl in *.
        -- now rewrite Nat.add_0_r.
        -- injection E as <- _. inversion Hpre; congruence.
    + rewrite IH. split.
      * intros (pre & d & rest & -> & -> & Hd & Hpre).
        exists (d0 :: pre), d, rest. simpl. repeat split; auto; try lia.
      * intros (pre & d & rest & E & -> & Hd & Hpre).
        destruct pre as [|p pre]; simpl in *.
        -- injection E as <- _. congruence.
        -- injection E as <- ->. inversion Hpre; subst.
           exists pre, d, rest. repeat split; auto; try lia.
Qed.

Lemma first_containing_from_None (descs : list str) :
  forall i0,
    first_containing_from lower m descs i0 = None <->
    Forall (fun d => hit lower m d = false) descs.
Proof.
  unfold hit. induction descs as [|d0 descs IH]; intros i0; simpl.
  - split; auto.
  - destruct (contains (lower m) (lower d0)) eqn:E0.
    + split; [discriminate|]. intros H. inversion H; congruence.
    + rewrite IH. split; [auto|]. intros H. now inversion H.
Qed.

Lemma last_containing_from_None (descs : list str) :
  forall i0,
    last_containing_from lower m descs i0 = None <->
    Forall (fun d => hit lower m d = false) descs.
Proof.
  unfold hit. induction descs as [|d0 descs IH]; intros i0; simpl.
  - split; auto.
  - specialize (IH (S i0)).
    destruct (last_containing_from lower m descs (S i0)) as [j|].
    + split; [discriminate|]. intros H. inversion H; subst.
      destruct IH as [_ IH]. now discriminate IH.
    + destruct (contains (lower m) (lower d0)) eqn:E0.
      * split; [discriminate|]. intros H. inversion H; congruence.
      * split; [|reflexivity]. intros _. constructor; [exact E0|].
        now apply IH.
Qed.

(** [last_containing] finds a description that contains the match string
    and that no such description follows. *)
Lemma last_containing_from_Some (descs : list str) :
  forall i0 i,
    last_containing_from lower m descs i0 = Some i <->
    exists pre d rest,
      descs = pre ++ d :: rest /\ i = i0 + List.length pre /\
      hit lower m d = true /\ Forall (fun d' => hit lower m d' = false) rest.
Proof.
  unfold hit. induction descs as [|d0 descs IH]; intros i0 i; simpl.
  - split; [discriminate|]. intros (pre & d & rest & E & _).
    destruct pre; discriminate.
  - destruct (last_containing_from lower m descs (S i0)) as [j|] eqn:El.
    + split.
      * intros [= <-]. apply IH in El.
        destruct El as (pre & d & rest & -> & -> & Hd & Hrest).
        exists (d0 :: pre), d, rest. simpl. repeat split; auto; try lia.
      * intros (pre & d & rest & E & -> & Hd & Hrest).
        destruct pre as [|p pre]; simpl in *.
        -- injection E as <- <-.
           apply IH in El. destruct El as (pre' & d' & rest' & -> & _ & Hd' & _).
           apply Forall_app in Hrest. destruct Hrest as [_ Hrest].
           inversion Hrest; congruence.
        -- injection E as <- ->. f_equal.
           assert (last_containing_from lower m (pre ++ d :: rest) (S i0)
                   = Some (S i0 + List.length pre)) as E2.
           { apply IH. exists pre, d, rest. auto. }
           rewrite E2 in El. injection El as <-. lia.
    + assert (Forall (fun d => contains (lower m) (lower d) = false) descs)
        as Hnone by now apply (last_containing_from_None descs (S i0)).
      destruct (contains (lower m) (lower d0)) eqn:E0.
      * split.
        -- intros [= <-]. exists [], d0, descs. simpl.
           rewrite Nat.add_0_r. auto.
        -- intros (pre & d & rest & E & -> & Hd & Hrest).
           destruct pre as [|p pre]; simpl in *.
           ++ now rewrite Nat.add_0_r.
           ++ injection E as <- ->. apply Forall_app in Hnone.
              destruct Hnone as [_ Hn]. inversion Hn; congruence.
      * split; [discriminate|].
        intros (pre & d & rest & E & -> & Hd & Hrest).
        destruct pre as [|p pre]; simpl in *.
        -- injection E as <- _. congruence.
        -- injection E as <- ->. apply Forall_app in Hnone.
           destruct Hnone as [_ Hn]. inversion Hn; congruence.
Qed.

(** Two descriptions that contain the match string: the first and the last
    such are different voices. *)
Lemma first_before_last (pre mid rest : list str) (d1 d2 : str) :
  hit lower m d1 = true -> hit lower m d2 = true ->
  exists a b,
    first_containing lower m (pre ++ d1 :: mid ++ d2 :: rest) = Some a /\
    last_containing lower m (pre ++ d1 :: mid ++ d2 :: rest) = Some b /\
    a < b.
Proof.
  intros H1 H2. set (descs := pre ++ d1 :: mid ++ d2 :: rest).
  destruct (first_containing lower m descs) as [a|] eqn:Ea.
  2:{ apply first_containing_from_None in Ea. subst descs.
      apply Forall_app in Ea. destruct Ea as [_ Ea]. inversion Ea; congruence. }
  destruct (last_containing lower m descs) as [b|] eqn:Eb.
  2:{ apply last_containing_from_None in Eb. subst descs.
      apply Forall_app in Eb. destruct Eb as [_ Eb]. inversion Eb; congruence. }
  exists a, b. repeat split.
  apply first_containing_from_Some in Ea.
  apply last_containing_from_Some in Eb.
  destruct Ea as (p1 & x1 & r1 & E1 & -> & Hx1 & Hp1).
  destruct Eb as (p2 & x2 & r2 & E2 & -> & Hx2 & Hr2).
  simpl.
  (* the first hit is not after [d1], the last not before [d2] *)
  assert (List.length p1 <= List.length pre) as Hle1.
  { destruct (Nat.le_gt_cases (List.length p1) (List.length pre)) as [|Hgt];
      [assumption|exfalso].
    assert (nth_error p1 (List.length pre) = Some d1) as Hn.
    { rewrite <- (nth_error_app1 p1 (x1 :: r1)) by lia. rewrite <- E1.
      subst descs. rewrite nth_error_app2, Nat.sub_diag by lia. reflexivity. }
    apply nth_error_In in Hn. rewrite Forall_forall in Hp1.
    specialize (Hp1 _ Hn). congruence. }
  assert (List.length (pre ++ d1 :: mid) <= List.length p2) as Hle2.
  { destruct (Nat.le_gt_cases (List.length (pre ++ d1 :: mid)) (List.length p2))
      as [|Hgt]; [assumption|exfalso].
    assert (nth_error descs (List.length (pre ++ d1 :: mid)) = Some d2) as Hn.
    { subst descs.
      change (pre ++ d1 :: mid ++ d2 :: rest)
        with (pre ++ (d1 :: mid) ++ d2 :: rest).
      rewrite app_assoc, nth_error_app2, Nat.sub_diag by lia. reflexivity. }
    rewrite E2 in Hn. rewrite nth_error_app2 in Hn by lia.
    destruct (List.length (pre ++ d1 :: mid) - List.length p2) as [|q] eqn:Eq;
      [lia|].
    simpl in Hn. apply nth_error_In in Hn. rewrite Forall_forall in Hr2.
    specialize (Hr2 _ Hn). congruence. }
  rewrite length_app in Hle2. simpl in Hle2. lia.
Qed.

End Selection.

Section SelectionAtStartup.

Variable lower : str -> str.
Hypothesis Hlower : python_lower lower.

Lemma __init___match (m : str) : _match (__init__ lower (Some m)) = lower m.
Proof. unfold __init__. now destruct m. Qed.

Lemma __init___match_empty (m : option str) :
  m = None \/ m = Some [] -> _match (__init__ lower m) = [].
Proof.
  intros [->| ->]; cbn [__init__ _match truthy];
    apply (lower_ascii lower Hlower); constructor.
Qed.

Lemma is_ascii_forallb (s : str) :
  forallb (fun c => (c <? 0x80)%N) s = true -> Forall is_ascii s.
Proof.
  rewrite forallb_forall, Forall_forall. intros H c Hc.
  apply N.ltb_lt. now apply H.
Qed.

(** After a start-up that raises nothing, with a non-empty match string, the
    voice is the first that contains it. *)
Lemma voice_after_startup (os : sapi) (descs : list str) (m : str) :
  startup_succeeds os descs -> m <> [] ->
  let self := _run lower os (__init__ lower (Some m)) in
  _thr self = Draining /\
  Voice (mem self) = first_containing lower m descs.
Proof.
  intros Hstart Hm self.
  assert (truthy (lower m) = true) as Ht.
  { pose proof (lower_nonempty lower Hlower m Hm).
    destruct (lower m); [contradiction|reflexivity]. }
  destruct (_run_Initializing_ok lower os descs (su_enumerates _ _ Hstart)
              Hstart (__init__ lower (Some m)) eq_refl)
    as (sel & st' & Hsel & Hrun & HV & _).
  rewrite __init___match in Hsel.
  rewrite (select_first_value lower os descs (su_enumerates _ _ Hstart)
             m _ descs Ht [] eq_refl) in Hsel.
  injection Hsel as <-.
  subst self. rewrite Hrun. cbn [_thr mem]. split; [reflexivity|].
  rewrite HV. unfold first_containing. cbn [List.length].
  now destruct (first_containing_from lower m descs 0).
Qed.

Lemma first_containing_example :
  first_containing lower (lit "natural") example_voices = Some 1.
Proof.
  unfold first_containing, example_voices. cbn [first_containing_from].
  rewrite !(lower_ascii lower Hlower)
    by (apply is_ascii_forallb; reflexivity).
  reflexivity.
Qed.

(** With an empty match string the [for] loop selects nothing, whatever the
    engine enumerates. *)
Lemma select_first_empty (os : sapi) (idxs : list nat) (st : state) :
  exists r,
    select_first lower os [] idxs st = (r, st) /\
    (r = Ok None \/ exists e, r = Raise e).
Proof.
  induction idxs as [|i rest IH]; cbn [select_first].
  - exists (Ok None). auto.
  - unfold bind at 1 2, call.
    destruct (Item os i) as [[]|e]; [|eauto].
    destruct (GetDescription os i) as [d|e]; [|eauto].
    cbn [truthy andb]. exact IH.
Qed.

Lemma _run_startup_empty_Voice (os : sapi) :
  frames Voice (_run_startup lower os []).
Proof.
  intros st.
  unfold _run_startup, assign_Rate, assign_Volume, print, try_except.
  unfold bind at 1 2 3, call.
  destruct (Dispatch os) as [[]|e]; [|reflexivity].
  destruct (GetVoices os) as [[]|e]; [|reflexivity].
  destruct (Count os) as [n|e]; [|reflexivity].
  unfold bind at 1 2.
  destruct (select_first_empty os (seq 0 n) st) as (r & -> & [->|[e ->]]);
    [|reflexivity].
  unfold bind, modify, ret, call.
  destruct (put_Rate os SAPI_RATE) as [[]|e1];
    destruct (put_Volume os SAPI_VOLUME) as [[]|e2];
    destruct st; reflexivity.
Qed.

Lemma step_empty_Voice (os : sapi) (self : SapiNaturalSpeaker) (ev : event) :
  _match self = [] ->
  _match (step lower os self ev) = [] /\
  Voice (mem (step lower os self ev)) = Voice (mem self).
Proof.
  intros Hm. destruct ev as [text|]; cbn [step].
  - rewrite speak_eq. destruct (_ <=? _); [|auto].
    cbn [_match mem]. split; [exact Hm|]. now destruct (mem self).
  - split; [now rewrite _run_match|].
    destruct (_thr self) eqn:Et.
    + unfold _run. rewrite Et, Hm. unfold bind, call, modify.
      destruct (CoInitialize os) as [[]|e]; [|reflexivity].
      cbn [mem snd].
      rewrite in_try_frames.
      * now destruct (mem self).
      * intros b []; reflexivity.
      * apply _run_startup_empty_Voice.
    + rewrite (_run_Draining lower os self Et). cbn [mem]. unfold after_turn.
      destruct (mem self) as [[|txt q] v r vo sp out c]; reflexivity.
    + now rewrite (_run_Terminated lower os self e Et).
Qed.

End SelectionAtStartup.

(** The claim that the selected voice is, for every match string, the first
    voice whose description contains it, fails for the empty match string:
    the description "Microsoft David" contains it, and no voice is selected. *)
Lemma voice_selection_counterexample :
  ~ (forall (m : str) (descs : list str),
       Voice (mem (_run ascii_lower (engine descs (Ok tt) (fun _ => Ok tt))
                     (__init__ ascii_lower (Some m))))
       = first_containing ascii_lower m descs).
Proof.
  intros H. specialize (H [] [lit "Microsoft David"]).
  vm_compute in H. discriminate H.
Qed.

(** C3, amended. At the worker's start-up, when service initialization and
    voice enumeration raise nothing and the configured match string is not
    empty, the selected voice is the first enumerated voice whose description
    contains the match string, both taken in lower case; when no description
    contains it the engine keeps the voice it started with.  For the
    descriptions "Microsoft David", "Microsoft Natural-II", "Microsoft Zira"
    and the match string "natural" the selected voice is the second,
    "Microsoft Natural-II". *)
Theorem voice_selection_first_match (lower : str -> str) (os : sapi)
    (descs : list str) (m : str) :
  python_lower lower ->
  startup_succeeds os descs ->
  m <> [] ->
  let self := _run lower os (__init__ lower (Some m)) in
  _thr self = Draining /\
  Voice (mem self) = first_containing lower m descs /\
  (forall i, Voice (mem self) = Some i <->
     exists pre d rest,
       descs = pre ++ d :: rest /\ i = List.length pre /\
       hit lower m d = true /\ Forall (fun d' => hit lower m d' = false) pre) /\
  (Voice (mem self) = None <->
     Forall (fun d => hit lower m d = false) descs) /\
  Voice (mem (_run lower (engine example_voices (Ok tt) (fun _ => Ok tt))
                (__init__ lower (Some (lit "natural"))))) = Some 1 /\
  nth_error example_voices 1 = Some (lit "Microsoft Natural-II").
Proof.
  intros Hlower Hstart Hm self.
  destruct (voice_after_startup lower Hlower os descs m Hstart Hm) as [Ht HV].
  fold self in Ht, HV.
  repeat match goal with |- _ /\ _ => split end.
  - exact Ht.
  - exact HV.
  - intros i. rewrite HV. unfold first_containing.
    now rewrite first_containing_from_Some.
  - rewrite HV. apply first_containing_from_None.
  - destruct (voice_after_startup lower Hlower
                (engine example_voices (Ok tt) (fun _ => Ok tt))
                example_voices (lit "natural")
                (engine_startup_succeeds _ _ _)) as [_ E]; [discriminate|].
    rewrite E. now apply first_containing_example.
  - reflexivity.
Qed.

(** The example of the specification, on the substitute engine. *)
Lemma voice_selection_first_match_witness :
  Voice (mem (_run ascii_lower (engine example_voices (Ok tt) (fun _ => Ok tt))
                (__init__ ascii_lower (Some NATURAL_MATCH_SUBSTR))))
  = first_containing ascii_lower NATURAL_MATCH_SUBSTR example_voices.
Proof.
  refine (proj1 (proj2 (voice_selection_first_match ascii_lower
                          (engine example_voices (Ok tt) (fun _ => Ok tt))
                          example_voices NATURAL_MATCH_SUBSTR _ _ _))).
  - exact ascii_lower_python.
  - apply engine_startup_succeeds.
  - discriminate.
Defined.

(** C10. A speaker constructed with an empty match string, or with [None],
    never selects a voice: whatever the engine enumerates and whatever
    happens later, the engine keeps the voice it started with, although the
    empty string is contained in every description. *)
Theorem empty_match_selects_nothing (lower : str -> str) (os : sapi)
    (m : option str) (evs : list event) :
  python_lower lower ->
  m = None \/ m = Some [] ->
  let self := exec lower os evs (__init__ lower m) in
  _match self = [] /\
  Voice (mem self) = None /\
  (forall idxs st i,
     fst (select_first lower os (_match self) idxs st) <> Ok (Some i)) /\
  (forall d, contains (_match self) (lower d) = true).
Proof.
  intros Hlower Hm self.
  assert (_match self = [] /\ Voice (mem self) = None) as [E1 E2].
  { subst self.
    pose proof (__init___match_empty lower Hlower m Hm) as H0.
    assert (Voice (mem (__init__ lower m)) = None) as H1 by reflexivity.
    revert H0 H1. generalize (__init__ lower m).
    induction evs as [|ev evs' IH]; intros s H0 H1; [auto|].
    destruct (step_empty_Voice lower os s ev H0) as [H0' H1'].
    apply (IH (step lower os s ev)); congruence. }
  repeat match goal with |- _ /\ _ => split end; try assumption.
  - intros idxs st i. rewrite E1.
    destruct (select_first_empty lower os idxs st) as (r & -> & [->|[e ->]]);
      discriminate.
  - intros d. rewrite E1. now destruct (lower d).
Qed.

(** The speaker constructed with [None], after it has started and a text
    has gone by. *)
Lemma empty_match_selects_nothing_witness :
  Voice (mem (exec ascii_lower (engine example_voices (Ok tt) (fun _ => Ok tt))
                [Tick; Submit (lit "Hello World !"); Tick]
                (__init__ ascii_lower None))) = None.
Proof.
  refine (proj1 (proj2 (empty_match_selects_nothing ascii_lower
                          (engine example_voices (Ok tt) (fun _ => Ok tt))
                          None [Tick; Submit (lit "Hello World !"); Tick] _ _))).
  - exact ascii_lower_python.
  - left. reflexivity.
Defined.

(* ================================================================== *)
(** * The speech worker: errors at start-up *)
(* ================================================================== *)

Section Tuning.

Variable lower : str -> str.
Variable os : sapi.
Variable descs : list str.
Hypothesis Hstart : startup_succeeds os descs.

Lemma step_tuned (self : SapiNaturalSpeaker) (ev : event) :
  tuned os self -> tuned os (step lower os self ev).
Proof.
  unfold tuned. intros H. destruct ev as [text|]; cbn [step].
  - rewrite speak_eq. destruct (_ <=? _); [|exact H].
    cbn [_thr mem]. now destruct (mem self).
  - right. destruct H as [(Hi & Hr & Hv)|(Hd & Hrv)].
    + destruct (_run_Initializing_ok lower os descs
                  (su_enumerates _ _ Hstart) Hstart self Hi)
        as (sel & st' & _ & -> & _ & HT).
      cbn [_thr mem]. split; [reflexivity|].
      rewrite HT, Hr, Hv. unfold tuning_outcome.
      destruct (put_Rate os SAPI_RATE) as [[]|e1];
        destruct (put_Volume os SAPI_VOLUME) as [[]|e2]; reflexivity.
    + rewrite (_run_Draining lower os self Hd). cbn [_thr mem].
      split; [reflexivity|]. rewrite <- Hrv. unfold after_turn.
      destruct (mem self) as [[|txt q] v r vo sp out c]; reflexivity.
Qed.

Lemma exec_tuned (evs : list event) :
  forall self, tuned os self -> tuned os (exec lower os evs self).
Proof.
  induction evs as [|ev evs IH]; intros self H; [exact H|].
  apply (IH (step lower os self ev)). now apply step_tuned.
Qed.

Lemma exec_tuning_outcome (m : option str) (evs1 evs2 : list event) :
  let self := exec lower os (evs1 ++ Tick :: evs2) (__init__ lower m) in
  _thr self = Draining /\
  (Rate (mem self), Volume (mem self)) = tuning_outcome os.
Proof.
  intros self.
  assert (tuned os self) as Ht.
  { apply exec_tuned. left. repeat split. }
  assert (_thr self = Draining) as Hd.
  { subst self. rewrite exec_app.
    change (exec lower os (Tick :: evs2) ?s)
      with (exec lower os evs2 (_run lower os s)).
    apply exec_Draining.
    assert (alive (exec lower os evs1 (__init__ lower m))) as Ha.
    { apply (exec_alive lower os descs (su_enumerates _ _ Hstart) Hstart).
      now left. }
    pose proof (step_alive lower os descs (su_enumerates _ _ Hstart) Hstart
                  _ Tick Ha) as Ha'.
    cbn [step] in Ha'. destruct Ha as [Hi|Hd].
    - destruct (_run_Initializing_ok lower os descs
                  (su_enumerates _ _ Hstart) Hstart _ Hi)
        as (sel & st' & _ & -> & _). reflexivity.
    - now rewrite (_run_Draining lower os _ Hd). }
  split; [exact Hd|].
  destruct Ht as [(Hi & _)|(_ & H)]; [congruence|exact H].
Qed.

End Tuning.

(** The claim that the worker loop runs after every error of the start-up
    fails where the [SAPI.SpVoice] object cannot be created: the exception
    leaves [_run] through its [finally] clause and the thread ends. *)
Lemma startup_error_counterexample :
  ~ (forall (os : sapi) (evs : list event),
       _thr (exec ascii_lower os (Tick :: evs)
               (__init__ ascii_lower (Some NATURAL_MATCH_SUBSTR))) = Draining).
Proof.
  intros H. specialize (H engine_without_SpVoice []).
  vm_compute in H. discriminate H.
Qed.

(** C4, amended. A failure of the rate and volume tuning is ignored: when
    service initialization and voice enumeration and selection raise
    nothing, then whatever the rate and volume assignments and the later
    calls of [Speak] do, the worker is in its loop from its first step on,
    at every later moment, and the rate and the volume that the tuning did
    not assign are those the engine started with. *)
Theorem tuning_failure_ignored (lower : str -> str) (os : sapi)
    (descs : list str) (m : option str) (evs1 evs2 : list event) :
  startup_succeeds os descs ->
  let self := exec lower os (evs1 ++ Tick :: evs2) (__init__ lower m) in
  _thr self = Draining /\
  (Rate (mem self), Volume (mem self)) = tuning_outcome os /\
  (forall e, put_Rate os SAPI_RATE = Raise e ->
     Rate (mem self) = None /\ Volume (mem self) = None) /\
  (forall e, put_Rate os SAPI_RATE = Ok tt ->
     put_Volume os SAPI_VOLUME = Raise e ->
     Rate (mem self) = Some SAPI_RATE /\ Volume (mem self) = None).
Proof.
  intros Hstart self.
  destruct (exec_tuning_outcome lower os descs Hstart m evs1 evs2) as [Hd Ht].
  fold self in Hd, Ht. unfold tuning_outcome in Ht.
  repeat match goal with |- _ /\ _ => split end; try assumption.
  - intros e He. rewrite He in Ht. now injection Ht.
  - intros e Hr He. rewrite Hr, He in Ht. now injection Ht.
Qed.

(** An engine that refuses the rate: the worker speaks with the rate and
    the volume it found. *)
Lemma tuning_failure_ignored_witness :
  let self :=
    exec ascii_lower
      (engine example_voices (Raise (Error "E_INVALIDARG")) (fun _ => Ok tt))
      ([] ++ Tick :: [Submit (lit "Hello World !"); Tick])
      (__init__ ascii_lower (Some NATURAL_MATCH_SUBSTR)) in
  _thr self = Draining /\
  (Rate (mem self), Volume (mem self)) = (None, None).
Proof.
  intros self.
  pose proof (tuning_failure_ignored ascii_lower
                (engine example_voices (Raise (Error "E_INVALIDARG"))
                   (fun _ => Ok tt))
                example_voices (Some NATURAL_MATCH_SUBSTR) []
                [Submit (lit "Hello World !"); Tick]
                (engine_startup_succeeds _ _ _)) as H.
  cbv zeta in H. split; [apply H|]. apply (proj1 (proj2 H)).
Defined.

(* ================================================================== *)
(** * The voice-listing script *)
(* ================================================================== *)

Section VoiceTest.

Variable lower : str -> str.
Hypothesis Hlower : python_lower lower.
Variable os : sapi.
Variable descs : list str.
Hypothesis Hstart : startup_succeeds os descs.

Lemma lower_natural : lower (lit "natural") = lit "natural".
Proof.
  rewrite (lower_ascii lower Hlower) by (apply is_ascii_forallb; reflexivity).
  reflexivity.
Qed.

Lemma choose_last_frames {X} (f : state -> X) (idxs : list nat) :
  (forall v st, f (set_stdout v st) = f st) ->
  forall chosen, frames f (choose_last lower os idxs chosen).
Proof.
  intros Hf. induction idxs as [|i rest IH]; intros chosen; cbn [choose_last].
  - apply frames_ret.
  - apply frames_bind; [apply frames_call|intros _].
    apply frames_bind; [apply frames_call|intros desc].
    apply frames_bind; [|intros _; apply IH].
    apply frames_modify. intros st. apply Hf.
Qed.

(** The [for] loop of the script keeps the last description that contains
    "natural". *)
Lemma choose_last_value (rest : list str) :
  forall pre chosen st,
    descs = pre ++ rest ->
    fst (choose_last lower os (seq (List.length pre) (List.length rest))
           chosen st)
    = Ok match last_containing_from lower (lit "natural") rest
                 (List.length pre) with
         | Some j => Some j
         | None => chosen
         end.
Proof.
  induction rest as [|d rest IH]; intros pre chosen st E.
  - reflexivity.
  - destruct (enumerated_at os descs (su_enumerates _ _ Hstart) pre rest d E)
      as [HI HD].
    cbn [List.length seq choose_last last_containing_from].
    unfold bind at 1 2 3, call, print, modify. rewrite HI, HD.
    specialize (IH (pre ++ [d])). rewrite length_app, Nat.add_1_r in IH.
    rewrite IH by now rewrite <- app_assoc.
    rewrite lower_natural.
    destruct (last_containing_from lower (lit "natural") rest
                (S (List.length pre))); [reflexivity|].
    now destruct (contains (lit "natural") (lower d)).
Qed.

Lemma choose_last_run (st1 : state) :
  exists st2,
    choose_last lower os (seq 0 (List.length descs)) None st1
    = (Ok (last_containing lower (lit "natural") descs), st2) /\
    Voice st2 = Voice st1 /\ spoken st2 = spoken st1.
Proof.
  pose proof (choose_last_value descs [] None st1 eq_refl) as Hval.
  pose proof (choose_last_frames Voice (seq 0 (List.length descs))
                (fun _ st => match st with
                             | Build_state _ _ _ _ _ _ _ => eq_refl
                             end) None st1) as HfV.
  pose proof (choose_last_frames spoken (seq 0 (List.length descs))
                (fun _ st => match st with
                             | Build_state _ _ _ _ _ _ _ => eq_refl
                             end) None st1) as Hfs.
  cbn [List.length] in Hval.
  destruct (choose_last lower os (seq 0 (List.length descs)) None st1)
    as [r st2].
  cbn [fst snd] in Hval, HfV, Hfs. subst r. exists st2.
  unfold last_containing.
  now destruct (last_containing_from lower (lit "natural") descs 0).
Qed.

(** The script ends with the last matching voice selected and the test
    phrase passed to [Speak]. *)
Lemma voice_test_state :
  let st := snd (voice_test lower os fresh) in
  Voice st = last_containing lower (lit "natural") descs /\
  spoken st = [lit "Hello, this is a test of the selected voice."].
Proof.
  destruct Hstart as [_ HD HG [HC _ _] HV [d Hd]].
  intros st. subst st.
  unfold voice_test, bind, call, print, modify.
  rewrite HD, HG, HC. cbn beta iota.
  match goal with
  | |- context [choose_last lower os _ None ?s] =>
      destruct (choose_last_run s) as (st2 & Ech & HfV & Hfs)
  end.
  rewrite Ech. cbn in HfV, Hfs.
  destruct (last_containing lower (lit "natural") descs) as [j|].
  - unfold assign_Voice, do_Speak, bind, call, modify. rewrite HV, Hd.
    cbn. rewrite Hfs. auto.
  - unfold do_Speak. cbn. rewrite HfV, Hfs. auto.
Qed.

End VoiceTest.

(** C9. The voice-listing script selects, and uses for its test phrase, the
    last enumerated voice whose description contains "natural" in lower
    case; the worker, with the match string "natural", selects the first.
    When two or more descriptions contain it, the voice of the script comes
    later in the enumeration than the voice of the worker. *)
Theorem voice_test_last_match (lower : str -> str) (os : sapi)
    (descs : list str) :
  python_lower lower ->
  startup_succeeds os descs ->
  let natural := lit "natural" in
  let st := snd (voice_test lower os fresh) in
  let worker := _run lower os (__init__ lower (Some natural)) in
  Voice st = last_containing lower natural descs /\
  spoken st = [lit "Hello, this is a test of the selected voice."] /\
  (forall b, Voice st = Some b <->
     exists pre d rest,
       descs = pre ++ d :: rest /\ b = List.length pre /\
       contains natural (lower d) = true /\
       Forall (fun d' => contains natural (lower d') = false) rest) /\
  Voice (mem worker) = first_containing lower natural descs /\
  (forall pre d1 mid d2 rest,
     descs = pre ++ d1 :: mid ++ d2 :: rest ->
     contains natural (lower d1) = true ->
     contains natural (lower d2) = true ->
     exists a b, Voice (mem worker) = Some a /\ Voice st = Some b /\ a < b).
Proof.
  intros Hlower Hstart. cbv zeta.
  pose proof (voice_test_state lower Hlower os descs Hstart) as H.
  cbv zeta in H. destruct H as [HV Hs].
  pose proof (voice_after_startup lower Hlower os descs (lit "natural") Hstart)
    as H.
  cbv zeta in H. destruct H as [_ HW]; [discriminate|].
  pose proof (lower_natural lower Hlower) as Hn.
  repeat match goal with |- _ /\ _ => split end; try assumption.
  - intros b. rewrite HV. unfold last_containing.
    rewrite last_containing_from_Some. unfold hit. rewrite Hn. reflexivity.
  - intros pre d1 mid d2 rest -> H1 H2. rewrite HV, HW.
    apply first_before_last; unfold hit; now rewrite Hn.
Qed.

(** Two "Natural" voices: the script takes the second of them, the worker
    the first. *)
Lemma voice_test_last_match_witness :
  let os := engine [lit "Microsoft David"; lit "Microsoft Natural-II";
                    lit "Microsoft Zira"; lit "Microsoft Aria (Natural)"]
                   (Ok tt) (fun _ => Ok tt) in
  Voice (snd (voice_test ascii_lower os fresh)) = Some 3 /\
  Voice (mem (_run ascii_lower os
                (__init__ ascii_lower (Some (lit "natural"))))) = Some 1.
Proof.
  intros os.
  pose proof (voice_test_last_match ascii_lower os
                [lit "Microsoft David"; lit "Microsoft Natural-II";
                 lit "Microsoft Zira"; lit "Microsoft Aria (Natural)"]
                ascii_lower_python (engine_startup_succeeds _ _ _)) as H.
  cbv zeta in H. destruct H as (H1 & _ & _ & H2 & _).
  split; [rewrite H1|rewrite H2]; reflexivity.
Defined.

(* ================================================================== *)
(** * The text normalizer: the words it keeps *)
(* ================================================================== *)

Section Words.

Example words_example :
  words ([SP; 0x09%N] ++ lit "Hello" ++ [CR; LF] ++ lit "World   !" ++ [LF])
  = [lit "Hello"; lit "World"; lit "!"].
Proof. reflexivity. Qed.

Lemma words_space (c : char) (r : str) :
  isspace c = true -> words (c :: r) = words r.
Proof. intros H. simpl. now rewrite H. Qed.

(** The words of [c :: r] depend on [r] through its words and through
    whether a word starts at once. *)
Lemma words_cons_congr (c : char) (r r' : str) :
  sep_first r = sep_first r' -> words r = words r' ->
  words (c :: r) = words (c :: r').
Proof. intros H1 H2. simpl. now rewrite H1, H2. Qed.

Lemma words_blank (q : str) : blank q -> words q = [].
Proof.
  induction 1 as [|c l Hc _ IH]; [reflexivity|]. now rewrite words_space.
Qed.

Lemma words_blank_prefix (p s : str) : blank p -> words (p ++ s) = words s.
Proof.
  induction 1 as [|c l Hc _ IH]; [reflexivity|].
  simpl app. now rewrite words_space.
Qed.

Lemma sep_first_blank (q : str) : blank q -> sep_first q = true.
Proof.
  intros [|c l Hc _]; [reflexivity|]. unfold sep_first. simpl. now rewrite Hc.
Qed.

Lemma words_blank_suffix (s q : str) : blank q -> words (s ++ q) = words s.
Proof.
  intros Hq. induction s as [|c r IH]; [now apply words_blank|].
  simpl app. apply words_cons_congr; [|exact IH].
  destruct r as [|d r]; [|reflexivity]. now apply sep_first_blank.
Qed.

(** What [lstrip] and [rstrip] take away is whitespace. *)
Lemma lstrip_split (s : str) : exists p, s = p ++ lstrip s /\ blank p.
Proof.
  induction s as [|c r (p & Hp & Hb)]; simpl.
  - exists []. split; [reflexivity|constructor].
  - destruct (isspace c) eqn:E.
    + exists (c :: p). split; [simpl; now f_equal|now constructor].
    + exists []. split; [reflexivity|constructor].
Qed.

Lemma rstrip_split (s : str) : exists q, s = rstrip s ++ q /\ blank q.
Proof.
  unfold rstrip. destruct (lstrip_split (rev s)) as (p & Hp & Hb).
  exists (rev p). split.
  - rewrite <- rev_app_distr, <- Hp. symmetry. apply rev_involutive.
  - unfold blank. now apply Forall_rev.
Qed.

Lemma words_strip (s : str) : words (strip s) = words s.
Proof.
  unfold strip.
  destruct (lstrip_split s) as (p & Hp & Hbp).
  destruct (rstrip_split (lstrip s)) as (q & Hq & Hbq).
  rewrite Hp at 2. rewrite words_blank_prefix by assumption.
  rewrite Hq at 2. now rewrite words_blank_suffix.
Qed.

Lemma startswith_app (old s : str) :
  startswith old s = true -> exists t, s = old ++ t.
Proof.
  revert s. induction old as [|x old IH]; intros s H.
  - now exists s.
  - destruct s as [|y s]; [discriminate|]. simpl in H.
    apply andb_true_iff in H. destruct H as [Hxy H].
    apply N.eqb_eq in Hxy. subst y.
    destruct (IH s H) as [t ->]. now exists t.
Qed.

(** Replacing whitespace by whitespace keeps the words.  [k] characters of
    an occurrence of [old] are still to be passed over. *)
Lemma words_replace_go (old new : str) :
  blank old -> old <> [] -> blank new -> new <> [] ->
  forall s k,
    blank (firstn k s) ->
    words (replace_go old new k s) = words s /\
    (k = 0 -> sep_first (replace_go old new 0 s) = sep_first s).
Proof.
  intros Hold Hoe Hnew Hne. induction s as [|c r IH]; intros k Hk.
  - destruct k; simpl; auto.
  - destruct k as [|k]; cbn [replace_go].
    + destruct (startswith old (c :: r)) eqn:Es.
      * destruct (startswith_app _ _ Es) as [t Et].
        destruct old as [|x old']; [contradiction|].
        -- simpl in Et. injection Et as <- ->.
           inversion Hold as [|? ? Hx Hold']; subst.
           cbn [List.length]. rewrite Nat.sub_succ, Nat.sub_0_r.
           destruct (IH (List.length old')) as [IHw _].
           { rewrite firstn_app, Nat.sub_diag, firstn_all. simpl.
             now rewrite app_nil_r. }
           split.
           ++ rewrite words_blank_prefix by assumption.
              rewrite IHw. symmetry. now apply words_space.
           ++ intros _. destruct new as [|n new']; [contradiction|].
              inversion Hnew; subst. unfold sep_first. simpl.
              now rewrite Hx, H1.
      * destruct (IH 0 ltac:(constructor)) as [IHw IHs].
        specialize (IHs eq_refl). split.
        -- now apply words_cons_congr.
        -- intros _. reflexivity.
    + simpl in Hk. inversion Hk as [|? ? Hc Hk']; subst.
      destruct (IH k Hk') as [IHw _]. split; [|discriminate].
      rewrite IHw. symmetry. now apply words_space.
Qed.

Lemma words_replace (s old new : str) :
  blank old -> old <> [] -> blank new -> new <> [] ->
  words (replace s old new) = words s.
Proof.
  intros Hold Hoe Hnew Hne.
  apply (words_replace_go old new Hold Hoe Hnew Hne s 0). constructor.
Qed.

(** Collapsing runs of whitespace keeps the words. *)
Lemma words_re_sub_ws2_go (s : str) :
  words (re_sub_ws2_go [SP] true s) = words s /\
  words (re_sub_ws2_go [SP] false s) = words s /\
  sep_first (re_sub_ws2_go [SP] false s) = sep_first s.
Proof.
  induction s as [|c r (IHt & IHf & IHs)]; [auto|].
  cbn [re_sub_ws2_go].
  change (match r with d :: _ => isspace d | [] => false end) with (head_ws r).
  destruct (isspace c) eqn:Ec.
  - split; [now rewrite IHt, words_space|].
    destruct (head_ws r); cbn [andb app].
    + split.
      * rewrite !words_space by (assumption || reflexivity). exact IHt.
      * unfold sep_first. simpl. now rewrite Ec.
    + split; [now apply words_cons_congr|reflexivity].
  - cbn [andb]. repeat split; now apply words_cons_congr.
Qed.

Lemma words_tidy_text (s : str) : words (tidy_text s) = words s.
Proof.
  unfold tidy_text. destruct s as [|c r]; [reflexivity|]. cbn [truthy negb].
  assert (blank [SP]) as Hsp by (repeat constructor).
  rewrite words_strip.
  unfold re_sub_ws2.
  rewrite (proj1 (proj2 (words_re_sub_ws2_go _))).
  rewrite !words_replace; try assumption; try discriminate;
    try (repeat constructor).
  apply words_strip.
Qed.

Lemma words_nil_blank (s : str) : words s = [] -> blank s.
Proof.
  induction s as [|c r IH]; [constructor|]. simpl.
  destruct (isspace c) eqn:Ec.
  - intros H. constructor; [exact Ec|now apply IH].
  - destruct (sep_first r); [discriminate|].
    destruct (words r); discriminate.
Qed.

(** The length of the result of each stage. *)
Lemma strip_length (s : str) : List.length (strip s) <= List.length s.
Proof.
  destruct (strip_slice s) as (p & q & E). rewrite E at 2.
  rewrite !length_app. lia.
Qed.

Lemma replace_go_length_le (old new : str) :
  List.length new <= List.length old ->
  forall s k,
    List.length (replace_go old new k s) <= List.length s - k.
Proof.
  intros Hlen. induction s as [|c r IH]; intros k; [simpl; lia|].
  destruct k as [|k]; cbn [replace_go].
  - destruct (startswith old (c :: r)) eqn:Es.
    + destruct (startswith_app _ _ Es) as [t Et].
      assert (List.length old <= S (List.length r)) as Hle.
      { change (S (List.length r)) with (List.length (c :: r)).
        rewrite Et, length_app. lia. }
      rewrite length_app. specialize (IH (List.length old - 1)).
      cbn [List.length]. lia.
    + specialize (IH 0). cbn [List.length]. lia.
  - specialize (IH k). cbn [List.length]. lia.
Qed.

Lemma re_sub_ws2_go_length (s : str) :
  forall b, List.length (re_sub_ws2_go [SP] b s) <= List.length s.
Proof.
  induction s as [|c r IH]; intros b; [destruct b; simpl; lia|].
  cbn [re_sub_ws2_go].
  destruct b; [destruct (isspace c)|destruct (isspace c && _)];
    cbn [List.length app];
    try (pose proof (IH true)); try (pose proof (IH false)); lia.
Qed.

End Words.

(** X1. The normalizer keeps the words of its input, the maximal runs of
    characters that are not whitespace: the same words, unchanged, in the
    same order, none merged with its neighbour. *)
Theorem tidy_text_keeps_words (s : str) :
  words (tidy_text s) = words s.
Proof. apply words_tidy_text. Qed.

(** X2. The normalizer gives the empty string exactly on the inputs that
    hold nothing but whitespace. *)
Theorem tidy_text_empty_iff (s : str) :
  tidy_text s = [] <-> blank s.
Proof.
  split.
  - intros H. apply words_nil_blank. now rewrite <- words_tidy_text, H.
  - intros H. pose proof (words_tidy_text s) as Hw.
    rewrite (words_blank s H) in Hw.
    pose proof (norm_head _ (tidy_text_normalized s)) as Hh.
    destruct (tidy_text s) as [|c r]; [reflexivity|].
    apply words_nil_blank in Hw. inversion Hw; subst.
    simpl in Hh. congruence.
Qed.

(** X3. The strings that the normalizer returns unchanged are exactly the
    normalized ones: no line feed, no carriage return, no two adjacent
    whitespace characters, no whitespace at either end. *)
Theorem tidy_text_unchanged_iff (s : str) :
  tidy_text s = s <-> normalized s.
Proof.
  split.
  - intros H. rewrite <- H. apply tidy_text_normalized.
  - apply tidy_text_fixpoint.
Qed.

(** X4. The result of the normalizer is never longer than its input. *)
Theorem tidy_text_length (s : str) :
  List.length (tidy_text s) <= List.length s.
Proof.
  unfold tidy_text. destruct s as [|c r]; [simpl; lia|]. cbn [truthy negb].
  set (s := c :: r).
  pose proof (strip_length s) as H1.
  pose proof (replace_go_length_le [CR; LF] [SP] ltac:(simpl; lia) (strip s) 0)
    as H2.
  pose proof (replace_go_length_le [LF] [SP] ltac:(simpl; lia)
                (replace (strip s) [CR; LF] [SP]) 0) as H3.
  pose proof (replace_go_length_le [CR] [SP] ltac:(simpl; lia)
                (replace (replace (strip s) [CR; LF] [SP]) [LF] [SP]) 0) as H4.
  fold (replace (strip s) [CR; LF] [SP]) in H2.
  fold (replace (replace (strip s) [CR; LF] [SP]) [LF] [SP]) in H3.
  fold (replace (replace (replace (strip s) [CR; LF] [SP]) [LF] [SP])
          [CR] [SP]) in H4.
  set (u := replace (replace (replace (strip s) [CR; LF] [SP]) [LF] [SP])
              [CR] [SP]) in *.
  pose proof (re_sub_ws2_go_length u false) as H5.
  pose proof (strip_length (re_sub_ws2 [SP] u)) as H6.
  unfold re_sub_ws2 in *. lia.
Qed.

(* ================================================================== *)
(** * The clipboard watcher and the hotkey callback *)
(* ================================================================== *)

(** X5. [get_clipboard_text] returns a text exactly when the clipboard could
    be opened, holds Unicode text, and the data read is a [str]; what
    [CloseClipboard] does, be it an error, plays no part. *)
Theorem get_clipboard_text_Some_iff (os : clipboard_os) (s : str) :
  get_clipboard_text os = Ok (Some s) <->
  OpenClipboard os = Ok tt /\
  IsClipboardFormatAvailable os = Ok true /\
  GetClipboardData os = Ok (PyStr s).
Proof.
  destruct os as [[[]|e1] [[|]|e2] [[s'|]|e3] [[]|e4]];
    unfold get_clipboard_text, try_finally, try_except, bind, call, modify, ret;
    simpl; split;
    try (intros H; discriminate H);
    try (intros (H1 & H2 & H3); discriminate);
    try (intros H; injection H as ->; auto);
    try (intros (_ & _ & H); injection H as ->; reflexivity).
Qed.

Section WatcherSound.

Variable time : Type.
Variable tsub : time -> time -> time.
Variable tlt : time -> time -> bool.
Variable w : world time.
Variable baseline : str.
Variable timeout_s : time.

(** What the loop returns, it returns at some turn [n] that the turns
    before it have led to. *)
Lemma wait_loop_sound (fuel : nat) :
  forall k r,
    wait_loop tsub tlt w baseline timeout_s (time_time w 0) fuel k = Some r ->
    exists n,
      k <= n < k + fuel /\
      (forall i, k <= i < n ->
         within tsub tlt w timeout_s i = true /\
         ~ is_change baseline (sample w i)) /\
      ((r = Ok None /\ within tsub tlt w timeout_s n = false) \/
       (exists c, r = Ok (Some c) /\ within tsub tlt w timeout_s n = true /\
                  sample w n = Some c /\ c <> [] /\ c <> baseline)).
Proof.
  induction fuel as [|fuel IH]; intros k r H; [discriminate|].
  cbn [wait_loop] in H.
  destruct (tlt (tsub (time_time w (S k)) (time_time w 0)) timeout_s) eqn:Ew.
  - rewrite get_clipboard_text_sample in H.
    destruct (changed (sample w k) baseline) eqn:Ec.
    + injection H as <-. apply changed_iff in Ec.
      destruct Ec as (c & Es & Hc & Hb).
      exists k. split; [lia|]. split; [intros i Hi; lia|].
      right. exists c. rewrite Es. auto.
    + destruct (IH (S k) r H) as (n & Hn & Hbefore & Hat).
      exists n. split; [lia|]. split; [|exact Hat].
      intros i Hi. destruct (Nat.eq_dec i k) as [->|Hne].
      * split; [exact Ew|]. intros Hch. apply changed_iff in Hch. congruence.
      * apply Hbefore. lia.
  - injection H as <-. exists k. split; [lia|]. split; [intros i Hi; lia|].
    left. auto.
Qed.

End WatcherSound.

(** X6. Whatever the watcher returns, it has polled for it: a returned text
    was read at some poll within the timeout, is non-empty and differs from
    the baseline, and no earlier poll saw such a text; no result means that
    the timeout had elapsed at some turn before which no poll saw one. *)
Theorem wait_for_clip_change_sound
    (time : Type) (tsub : time -> time -> time) (tlt : time -> time -> bool)
    (w : world time) (B : str) (T : time) (fuel : nat)
    (r : result (option str)) :
  wait_for_clip_change tsub tlt w B T fuel = Some r ->
  exists n,
    n < fuel /\
    (forall k, k < n ->
       within tsub tlt w T k = true /\ ~ is_change B (sample w k)) /\
    ((r = Ok None /\ within tsub tlt w T n = false) \/
     (exists c, r = Ok (Some c) /\ within tsub tlt w T n = true /\
                sample w n = Some c /\ c <> [] /\ c <> B)).
Proof.
  intros H. destruct (wait_loop_sound time tsub tlt w B T fuel 0 r H)
    as (n & Hn & Hbefore & Hat).
  exists n. split; [lia|]. split; [|exact Hat].
  intros k Hk. apply Hbefore. lia.
Qed.

Lemma wait_for_clip_change_sound_witness :
  exists n,
    n < 200 /\
    (forall k, k < n ->
       within Z.sub Z.ltb demo_world 1500%Z k = true /\
       ~ is_change (lit "old") (sample demo_world k)) /\
    ((Ok (Some (lit "Hello")) = Ok None /\
      within Z.sub Z.ltb demo_world 1500%Z n = false) \/
     (exists c, Ok (Some (lit "Hello")) = Ok (Some c) /\
                within Z.sub Z.ltb demo_world 1500%Z n = true /\
                sample demo_world n = Some c /\ c <> [] /\ c <> lit "old")).
Proof.
  apply (wait_for_clip_change_sound Z Z.sub Z.ltb demo_world (lit "old")
           1500%Z 200 (Ok (Some (lit "Hello")))).
  reflexivity.
Defined.

Section HotkeyFacts.

Variable time : Type.
Variable tsub : time -> time -> time.
Variable tlt : time -> time -> bool.
Variable w : world time.
Variable baseline : str.
Variable timeout_s : time.
Variable n fuel : nat.
Hypothesis Hbefore :
  forall k, k < n ->
    within tsub tlt w timeout_s k = true /\ ~ is_change baseline (sample w k).
Hypothesis Hfuel : n < fuel.




End HotkeyFacts.



(** A console that cannot encode the text: the error leaves the callback
    and the text is not queued. *)
Example on_hotkey_console_raises :
  on_hotkey Z.sub Z.ltb 15000%Z console_ascii_only
    {| time_time := fun k => (100 * Z.of_nat k)%Z;
       clipboard := fun k =>
         match k with
         | 0 => clipboard_holding (lit "old")
         | _ => clipboard_holding (lit "caf" ++ [0xE9%N])
         end |}
    200 idle_speaker
  = Some (Raise (Error "UnicodeEncodeError")).
Proof. reflexivity. Qed.

(* ================================================================== *)
(** * The speech worker: after its first step *)
(* ================================================================== *)

Section AfterStart.

Variable lower : str -> str.
Variable os : sapi.

Lemma _run_not_Initializing (self : SapiNaturalSpeaker) :
  _thr (_run lower os self) <> Initializing.
Proof.
  unfold _run, in_try. destruct (_thr self) eqn:E.
  - destruct ((call (CoInitialize os);; modify (set_com true)) (mem self))
      as [[[]|e] st]; cbn [_thr fst]; [|discriminate].
    destruct (_run_startup lower os (_match self) st) as [[[]|e] st'];
      [discriminate|].
    destruct (_run_finally os st') as [[[]|e'] st'']; discriminate.
  - rewrite _run_iteration_eq. discriminate.
  - rewrite E. discriminate.
Qed.

(** Once the thread has left its start-up, a step changes the queue and the
    record of the calls of [Speak] at most. *)
Lemma step_settled (self : SapiNaturalSpeaker) (ev : event) :
  _thr self <> Initializing ->
  let self' := step lower os self ev in
  _thr self' = _thr self /\ _match self' = _match self /\
  Voice (mem self') = Voice (mem self) /\
  Rate (mem self') = Rate (mem self) /\
  Volume (mem self') = Volume (mem self) /\
  stdout (mem self') = stdout (mem self) /\
  com (mem self') = com (mem self).
Proof.
  intros Hni. destruct ev as [text|]; cbn [step].
  - rewrite speak_eq. destruct (_ <=? _); cbv zeta; [|repeat split].
    cbn [_thr _match mem]. destruct (mem self). repeat split.
  - destruct (_thr self) eqn:E; [contradiction| |].
    + rewrite (_run_Draining lower os self E). cbv zeta.
      cbn [_thr _match mem]. unfold after_turn.
      destruct (mem self) as [[|txt q] v r vo sp out c]; repeat split; auto.
    + rewrite (_run_Terminated lower os self e E). cbv zeta. repeat split; auto.
Qed.

Lemma exec_settled (evs : list event) :
  forall self,
    _thr self <> Initializing ->
    let self' := exec lower os evs self in
    _thr self' = _thr self /\ _match self' = _match self /\
    Voice (mem self') = Voice (mem self) /\
    Rate (mem self') = Rate (mem self) /\
    Volume (mem self') = Volume (mem self) /\
    stdout (mem self') = stdout (mem self) /\
    com (mem self') = com (mem self).
Proof.
  induction evs as [|ev evs IH]; intros self Hni; [cbv zeta; repeat split|].
  pose proof (step_settled self ev Hni) as Hs. cbv zeta in Hs.
  destruct Hs as (H1 & H2 & H3 & H4 & H5 & H6 & H7).
  assert (_thr (step lower os self ev) <> Initializing) as Hni' by congruence.
  pose proof (IH (step lower os self ev) Hni') as Hi. cbv zeta in Hi.
  destruct Hi as (I1 & I2 & I3 & I4 & I5 & I6 & I7).
  cbv zeta. change (exec lower os (ev :: evs) self)
    with (exec lower os evs (step lower os self ev)).
  repeat split; congruence.
Qed.

(** A start-up that fails ends the thread at its first step. *)
Lemma _run_startup_fails (self : SapiNaturalSpeaker) :
  startup_fails os -> _thr self = Initializing ->
  exists e, _thr (_run lower os self) = Terminated e.
Proof.
  intros Hf Hi. unfold _run. rewrite Hi. unfold bind at 1, call, modify.
  destruct (CoInitialize os) as [[]|e0] eqn:E0; [|eexists; reflexivity].
  cbn [_thr fst]. unfold in_try.
  assert (exists e st', _run_startup lower os (_match self)
                          (set_com true (mem self)) = (Raise e, st'))
    as (e & st' & ->).
  { unfold _run_startup. unfold bind at 1 2 3, call.
    destruct Hf as [[e H]|[[e H]|[[e H]|[e H]]]]; [congruence| | |].
    - rewrite H. eauto.
    - destruct (Dispatch os) as [[]|e1]; [|eauto]. rewrite H. eauto.
    - destruct (Dispatch os) as [[]|e1]; [|eauto].
      destruct (GetVoices os) as [[]|e2]; [|eauto]. rewrite H. eauto. }
  destruct (_run_finally os st') as [[[]|e'] st'']; eexists; reflexivity.
Qed.

End AfterStart.

(** X8. When the worker's start-up fails at [CoInitialize], at the creation
    of the [SAPI.SpVoice] object, at [GetVoices] or at [Count], the worker
    thread ends at its first step, no text is ever passed to [Speak], and
    every text that [speak] accepts stays in the queue, in order. *)
Theorem failed_startup_never_speaks (lower : str -> str) (os : sapi)
    (m : option str) (evs : list event) :
  startup_fails os ->
  let self := exec lower os evs (__init__ lower m) in
  spoken (mem self) = [] /\
  _q (mem self) = accepted (submitted evs) /\
  (In Tick evs -> exists e, _thr self = Terminated e).
Proof.
  intros Hf self.
  assert (forall evs0 s,
            spoken (mem s) = [] ->
            (_thr s = Initializing \/ exists e, _thr s = Terminated e) ->
            spoken (mem (exec lower os evs0 s)) = [] /\
            ((In Tick evs0 \/ exists e, _thr s = Terminated e) ->
             exists e, _thr (exec lower os evs0 s) = Terminated e)) as Hinv.
  { induction evs0 as [|ev evs0 IH]; intros s Hs Ht.
    - split; [exact Hs|]. intros [[]|H]. exact H.
    - change (exec lower os (ev :: evs0) s)
        with (exec lower os evs0 (step lower os s ev)).
      destruct ev as [text|]; cbn [step].
      + assert (spoken (mem (speak text s)) = [] /\
                _thr (speak text s) = _thr s) as [Hs' Ht'].
        { rewrite speak_eq. destruct (_ <=? _); [|auto].
          cbn [mem _thr]. now destruct (mem s). }
        destruct (IH (speak text s) Hs') as [I1 I2]; [now rewrite Ht'|].
        split; [exact I1|]. intros [[H|H]|H]; [discriminate| |];
          apply I2; [now left|right; now rewrite Ht'].
      + assert (spoken (mem (_run lower os s)) = [] /\
                exists e, _thr (_run lower os s) = Terminated e) as [Hs' Ht'].
        { destruct Ht as [Hi|[e He]].
          - split; [|now apply _run_startup_fails].
            destruct (_run_Initializing_frames lower os s Hi) as [_ ->].
            exact Hs.
          - rewrite (_run_Terminated lower os s e He). eauto. }
        destruct (IH (_run lower os s) Hs') as [I1 I2]; [now right|].
        split; [exact I1|]. intros _. apply I2. now right. }
  destruct (Hinv evs (__init__ lower m) eq_refl) as [H1 H2]; [now left|].
  fold self in H1, H2.
  pose proof (exec_conserves lower os evs (__init__ lower m)) as Hc.
  fold self in Hc. rewrite H1 in Hc. cbn in Hc.
  repeat match goal with |- _ /\ _ => split end; auto.
Qed.

Lemma failed_startup_never_speaks_witness :
  let self := exec ascii_lower engine_without_SpVoice
                [Submit (lit "one"); Tick; Submit (lit "no"); Tick;
                 Submit (lit "three")]
                (__init__ ascii_lower (Some NATURAL_MATCH_SUBSTR)) in
  spoken (mem self) = [] /\ _q (mem self) = [lit "one"; lit "three"].
Proof.
  intros self.
  pose proof (failed_startup_never_speaks ascii_lower engine_without_SpVoice
                (Some NATURAL_MATCH_SUBSTR)
                [Submit (lit "one"); Tick; Submit (lit "no"); Tick;
                 Submit (lit "three")]
                (or_intror (or_introl (ex_intro _ _ eq_refl)))) as H.
  cbv zeta in H. destruct H as (H1 & H2 & _). split; [exact H1|exact H2].
Defined.

(** X9. The voice is chosen once: after the worker thread's first step,
    whatever the engine does and whatever is submitted, the thread's
    status, the selected voice, the rate and the volume, the console output
    and the COM state stay as that step left them. *)
Theorem voice_fixed_after_startup (lower : str -> str) (os : sapi)
    (m : option str) (evs1 evs2 : list event) :
  let started := exec lower os (evs1 ++ [Tick]) (__init__ lower m) in
  let later := exec lower os (evs1 ++ Tick :: evs2) (__init__ lower m) in
  _thr later = _thr started /\
  Voice (mem later) = Voice (mem started) /\
  Rate (mem later) = Rate (mem started) /\
  Volume (mem later) = Volume (mem started) /\
  stdout (mem later) = stdout (mem started) /\
  com (mem later) = com (mem started).
Proof.
  intros started later.
  assert (later = exec lower os evs2 started) as ->.
  { subst later started. now rewrite !exec_app. }
  assert (_thr started <> Initializing) as Hni.
  { subst started. rewrite exec_app. apply _run_not_Initializing. }
  pose proof (exec_settled lower os evs2 started Hni) as H. cbv zeta in H.
  tauto.
Qed.

(* ================================================================== *)
(** * The project set-up script: names *)
(* ================================================================== *)

Section ProjectName.

Lemma is_alnum_name_char (c : char) : is_alnum c = true -> is_name_char c = true.
Proof. intros H. unfold is_name_char. now rewrite H. Qed.

Lemma is_name_char_range (c : char) :
  is_name_char c = true -> (0x2D <= c <= 0x7A)%N.
Proof.
  unfold is_name_char, is_alnum.
  rewrite !orb_true_iff, !andb_true_iff, !N.leb_le, !N.eqb_eq. lia.
Qed.

Lemma isspace_range (c : char) :
  isspace c = true -> (c <= 0x20 \/ 0x85 <= c)%N.
Proof.
  unfold isspace.
  rewrite !orb_true_iff, !andb_true_iff, !N.leb_le, !N.eqb_eq. lia.
Qed.

Lemma is_name_char_not_space (c : char) :
  is_name_char c = true -> isspace c = false.
Proof.
  intros H. apply is_name_char_range in H.
  destruct (isspace c) eqn:E; [|reflexivity].
  apply isspace_range in E. lia.
Qed.

Lemma contains_char (x : char) (s : str) :
  contains [x] s = true <-> In x s.
Proof.
  induction s as [|c r IH]; simpl.
  - split; [discriminate|tauto].
  - rewrite andb_true_r, orb_true_iff, N.eqb_eq, IH. split.
    + intros [->|H]; auto.
    + intros [->|H]; auto.
Qed.

Lemma after_name_chars_nil (r : str) :
  after_name_chars r = [] <-> forallb is_name_char r = true.
Proof.
  induction r as [|c r IH]; simpl; [tauto|].
  destruct (is_name_char c); simpl; [exact IH|].
  split; discriminate.
Qed.

(** When the pattern stops before a final newline, the string ends with
    that newline. *)
Lemma after_name_chars_LF (r : str) :
  after_name_chars r = [LF] -> exists p, r = p ++ [LF].
Proof.
  induction r as [|c r IH]; simpl; [discriminate|].
  destruct (is_name_char c).
  - intros H. destruct (IH H) as [p ->]. now exists (c :: p).
  - intros H. exists []. exact H.
Qed.

Lemma at_dollar_cases (s : str) :
  at_dollar s = true -> s = [] \/ s = [LF].
Proof.
  destruct s as [|c [|d s]]; simpl; auto; [|discriminate].
  intros H. apply N.eqb_eq in H. subst. auto.
Qed.

(** A name of the accepted form, already stripped. *)
Lemma name_accepted (c : char) (r : str) :
  is_alnum c = true -> forallb is_name_char r = true ->
  strip (c :: r) = c :: r /\
  contains [SP] (c :: r) = false /\
  re_match_name (c :: r) = true.
Proof.
  intros Hc Hr.
  assert (Forall (fun x => isspace x = false) (c :: r)) as Hns.
  { constructor.
    - apply is_name_char_not_space. now apply is_alnum_name_char.
    - apply Forall_forall. intros x Hx. apply is_name_char_not_space.
      rewrite forallb_forall in Hr. now apply Hr. }
  repeat split.
  - apply strip_id.
    + inversion Hns; subst. assumption.
    + apply Forall_rev in Hns.
      destruct (rev (c :: r)) as [|y l]; [reflexivity|].
      inversion Hns; subst. assumption.
  - destruct (contains [SP] (c :: r)) eqn:E; [|reflexivity].
    apply contains_char in E. rewrite Forall_forall in Hns.
    specialize (Hns SP E). discriminate Hns.
  - simpl. rewrite Hc. apply after_name_chars_nil in Hr. now rewrite Hr.
Qed.

Lemma validate_project_name_Ok (s n : str) :
  validate_project_name s = Ok n ->
  n = strip s /\
  exists c r, n = c :: r /\ is_alnum c = true /\
              forallb is_name_char r = true.
Proof.
  unfold validate_project_name.
  destruct (strip s) as [|c r] eqn:Es; cbn [truthy negb]; [discriminate|].
  destruct (contains [SP] (c :: r)); [discriminate|].
  destruct (re_match_name (c :: r)) eqn:Em; cbn [negb]; [|discriminate].
  intros [= <-]. split; [reflexivity|]. exists c, r. split; [reflexivity|].
  simpl in Em. apply andb_true_iff in Em. destruct Em as [Hc Hd].
  split; [exact Hc|].
  apply at_dollar_cases in Hd. destruct Hd as [Hd|Hd].
  - now apply after_name_chars_nil.
  - exfalso. destruct (after_name_chars_LF r Hd) as [p ->].
    pose proof (strip_last s) as Hl. rewrite Es in Hl.
    change (c :: p ++ [LF]) with ((c :: p) ++ [LF]) in Hl.
    rewrite rev_app_distr in Hl. simpl in Hl. discriminate Hl.
Qed.

End ProjectName.

Example validate_project_name_examples :
  validate_project_name (lit "  my-proj_2.0 ") = Ok (lit "my-proj_2.0") /\
  validate_project_name (lit "   ")
  = Raise (Error "Project name cannot be empty.") /\
  validate_project_name (lit "-my proj")
  = Raise (Error "Project name cannot contain spaces.") /\
  validate_project_name (lit "my" ++ [0x09%N] ++ lit "proj")
  = Raise (Error "Invalid project name. Use letters/numbers and . _ - ; must start with a letter/number.").
Proof. repeat split. Qed.

(** X10. [validate_project_name] accepts a name exactly when, stripped of
    the whitespace around it, it starts with an ASCII letter or digit and
    holds besides only ASCII letters, digits, dots, underscores and dashes;
    it then returns the stripped name, which holds no whitespace and is
    accepted again unchanged.  A name that is empty once stripped is refused
    with the message for empty names, and one that holds a space with the
    message for spaces, whatever else is wrong with it. *)
Theorem validate_project_name_accepts (s : str) :
  (forall n,
     validate_project_name s = Ok n <->
     n = strip s /\
     exists c r, n = c :: r /\ is_alnum c = true /\
                 forallb is_name_char r = true) /\
  (forall n,
     validate_project_name s = Ok n ->
     validate_project_name n = Ok n /\
     Forall (fun c => isspace c = false) n) /\
  (strip s = [] ->
   validate_project_name s = Raise (Error "Project name cannot be empty.")) /\
  (In SP (strip s) ->
   validate_project_name s
   = Raise (Error "Project name cannot contain spaces.")).
Proof.
  repeat match goal with |- _ /\ _ => split end.
  - intros n. split; [apply validate_project_name_Ok|].
    intros (-> & c & r & E & Hc & Hr).
    destruct (name_accepted c r Hc Hr) as (_ & Hsp & Hm).
    unfold validate_project_name. rewrite E. cbn [truthy negb].
    now rewrite Hsp, Hm.
  - intros n H. apply validate_project_name_Ok in H.
    destruct H as (_ & c & r & -> & Hc & Hr).
    destruct (name_accepted c r Hc Hr) as (Hst & Hsp & Hm). split.
    + unfold validate_project_name. rewrite Hst. cbn [truthy negb].
      now rewrite Hsp, Hm.
    + constructor.
      * apply is_name_char_not_space. now apply is_alnum_name_char.
      * apply Forall_forall. intros x Hx. apply is_name_char_not_space.
        rewrite forallb_forall in Hr. now apply Hr.
  - intros E. unfold validate_project_name. now rewrite E.
  - intros Hin. unfold validate_project_name.
    destruct (strip s) as [|c r]; [contradiction|]. cbn [truthy negb].
    apply contains_char in Hin. now rewrite Hin.
Qed.

(* ================================================================== *)
(** * The project set-up script: replacing the token *)
(* ================================================================== *)

Section ReplaceToken.

Lemma replace_no_occurrence (old new s : str) :
  contains old s = false -> replace s old new = s.
Proof.
  unfold replace. induction s as [|c r IH]; intros H; [reflexivity|].
  cbn [contains] in H. apply orb_false_elim in H. destruct H as [H1 H2].
  cbn [replace_go]. rewrite H1. f_equal. now apply IH.
Qed.

(** Replacing [old] by itself only passes over what is still to be passed
    over. *)
Lemma replace_go_same (old : str) :
  old <> [] -> forall s k, replace_go old old k s = skipn k s.
Proof.
  intros Hne. induction s as [|c r IH]; intros k; [now destruct k|].
  destruct k as [|k]; cbn [replace_go skipn]; [|apply IH].
  destruct (startswith old (c :: r)) eqn:Es.
  - destruct (startswith_app _ _ Es) as [t Et].
    destruct old as [|x old']; [contradiction|].
    simpl in Et. injection Et as <- ->.
    rewrite IH. cbn [List.length]. rewrite Nat.sub_succ, Nat.sub_0_r.
    rewrite skipn_app, Nat.sub_diag, skipn_all. reflexivity.
  - now rewrite IH.
Qed.

Lemma replace_go_length_ge (old new : str) :
  old <> [] -> List.length old <= List.length new ->
  forall s k, List.length s <= List.length (replace_go old new k s) + k.
Proof.
  intros Hne Hlen. induction s as [|c r IH]; intros k; [simpl; lia|].
  destruct k as [|k]; cbn [replace_go].
  - destruct (startswith old (c :: r)).
    + rewrite length_app. specialize (IH (List.length old - 1)).
      destruct old; [contradiction|]. cbn [List.length] in *. lia.
    + specialize (IH 0). cbn [List.length]. lia.
  - specialize (IH k). cbn [List.length]. lia.
Qed.

Lemma app_eq_length {A} (a b x y : list A) :
  a ++ x = b ++ y -> List.length a = List.length b -> a = b.
Proof.
  revert b. induction a as [|h a IH]; intros [|h' b] E L;
    try discriminate L; [reflexivity|].
  simpl in E. injection E as -> E. f_equal. apply IH; [exact E|].
  simpl in L. lia.
Qed.

(** Where [old] occurs and [new] is another string, the text changes. *)
Lemma replace_changes (old new s : str) :
  old <> [] -> new <> old -> contains old s = true ->
  replace s old new <> s.
Proof.
  intros Hne Hno. unfold replace.
  induction s as [|c r IH]; intros Hc.
  - destruct old; [contradiction|discriminate].
  - cbn [replace_go]. destruct (startswith old (c :: r)) eqn:Es.
    + destruct (startswith_app _ _ Es) as [t Et]. intros Heq.
      apply Hno. rewrite Et in Heq. apply (app_eq_length _ _ _ _ Heq).
      assert (List.length (c :: r) = List.length old + List.length t) as Hl
        by now rewrite Et, length_app.
      apply (f_equal (@List.length char)) in Heq.
      rewrite !length_app in Heq. cbn [List.length] in Hl.
      destruct (Nat.le_ge_cases (List.length new) (List.length old)) as [Hle|Hge].
      * pose proof (replace_go_length_le old new Hle r (List.length old - 1)).
        destruct old; [contradiction|]. cbn [List.length] in *. lia.
      * pose proof (replace_go_length_ge old new Hne Hge r (List.length old - 1)).
        destruct old; [contradiction|]. cbn [List.length] in *. lia.
    + cbn [contains] in Hc. rewrite Es in Hc. cbn [orb] in Hc.
      intros Heq. injection Heq as Heq. now apply IH.
Qed.

Lemma flat_map_cons_length (new s : str) :
  List.length s <= List.length (flat_map (fun c => c :: new) s).
Proof.
  induction s as [|c r IH]; [simpl; lia|].
  cbn [flat_map]. rewrite length_app. cbn [List.length]. lia.
Qed.

Lemma flat_map_singleton (s : str) : flat_map (fun c => [c]) s = s.
Proof. induction s as [|c r IH]; [reflexivity|]. simpl. now f_equal. Qed.

Lemma contains_nil (s : str) : contains [] s = true.
Proof. now destruct s. Qed.

Lemma replace_token_in_text_eq (text token replacement : str) :
  replace_token_in_text text token replacement = text <->
  replacement = token \/ contains token text = false.
Proof.
  destruct token as [|x token]; cbn [replace_token_in_text].
  - rewrite contains_nil. split.
    + intros H. left. apply (f_equal (@List.length char)) in H.
      rewrite length_app in H.
      pose proof (flat_map_cons_length replacement text).
      destruct replacement; [reflexivity|]. cbn [List.length] in H. lia.
    + intros [->|H]; [|discriminate]. apply flat_map_singleton.
  - split.
    + intros H. destruct (contains (x :: token) text) eqn:Ec; [|now right].
      left. destruct (list_eq_dec N.eq_dec replacement (x :: token))
        as [E|Hne]; [exact E|].
      exfalso. now apply (replace_changes (x :: token) replacement text).
    + intros [->|H].
      * unfold replace. now rewrite replace_go_same.
      * now apply replace_no_occurrence.
Qed.

End ReplaceToken.

Example replace_token_in_text_examples :
  replace_token_in_text (lit "name = input_name; input_names") TOKEN (lit "tts")
  = lit "name = tts; ttss" /\
  replace_token_in_text (lit "abc") [] (lit "-") = lit "-a-b-c-".
Proof. split; reflexivity. Qed.

(** X11. [replace_token_in_text] returns the text unchanged exactly when the
    replacement is the token itself or the token does not occur in the
    text. *)
Theorem replace_token_in_text_unchanged_iff (text token replacement : str) :
  replace_token_in_text text token replacement = text <->
  replacement = token \/ contains token text = false.
Proof. apply replace_token_in_text_eq. Qed.

Section ReplaceInFile.

Variable os : disk.
Variable path : string.
Variable token replacement : str.

Lemma replace_token_in_file_missing (dry_run : bool) (st : io) :
  path_exists os path = false ->
  fst (replace_token_in_file os path token replacement dry_run st) = Ok false /\
  written (snd (replace_token_in_file os path token replacement dry_run st))
  = written st.
Proof.
  intros H. unfold replace_token_in_file. rewrite H. split; reflexivity.
Qed.

Lemma replace_token_in_file_unreadable (dry_run : bool) (st : io) (e : exn) :
  path_exists os path = true -> read_text os path = Raise e ->
  replace_token_in_file os path token replacement dry_run st = (Raise e, st).
Proof.
  intros H Hr. unfold replace_token_in_file, bind, call. now rewrite H, Hr.
Qed.

Lemma replace_token_in_file_same (dry_run : bool) (st : io) (original : str) :
  path_exists os path = true -> read_text os path = Ok original ->
  replace_token_in_text original token replacement = original ->
  fst (replace_token_in_file os path token replacement dry_run st) = Ok false /\
  written (snd (replace_token_in_file os path token replacement dry_run st))
  = written st.
Proof.
  intros H Hr He. unfold replace_token_in_file, bind, call.
  rewrite H, Hr. cbn [negb]. rewrite He.
  assert (PyStr.eqb original original = true) as -> by now apply eqb_eq.
  split; reflexivity.
Qed.

Lemma replace_token_in_file_differs (dry_run : bool) (st : io)
    (original : str) :
  path_exists os path = true -> read_text os path = Ok original ->
  replace_token_in_text original token replacement <> original ->
  let updated := replace_token_in_text original token replacement in
  let run := replace_token_in_file os path token replacement dry_run st in
  (dry_run = true -> fst run = Ok true /\ written (snd run) = written st) /\
  (dry_run = false ->
   written (snd run) = written st ++ [(path, updated)] /\
   (write_text os path updated = Ok tt -> fst run = Ok true) /\
   (forall e, write_text os path updated = Raise e -> fst run = Raise e)).
Proof.
  intros H Hr Hne updated run. subst run.
  unfold replace_token_in_file, bind, call. rewrite H, Hr. cbn [negb].
  fold updated.
  assert (PyStr.eqb updated original = false) as ->.
  { destruct (PyStr.eqb updated original) eqn:E; [|reflexivity].
    apply eqb_eq in E. contradiction. }
  cbn [negb]. split; intros ->.
  - split; reflexivity.
  - unfold do_write_text, io_print, modify, ret.
    destruct (write_text os path updated) as [[]|e];
      repeat split; try discriminate; try reflexivity.
    intros e0 [= <-]. reflexivity.
Qed.

End ReplaceInFile.

(** X12. [replace_token_in_file] writes at most once and only to the path
    it was given.  It writes nothing in a dry run, nothing when the file is
    missing or cannot be read, and nothing when the token does not occur in
    the file or is its own replacement, and then reports no change.  When
    the token occurs and the replacement differs, a dry run reports a change
    without writing, and a real run asks for one write, of the text with
    the token replaced. *)
Theorem replace_token_in_file_writes (os : disk) (path : string)
    (token replacement : str) (dry_run : bool) (st : io) :
  let run := replace_token_in_file os path token replacement dry_run st in
  (dry_run = true -> written (snd run) = written st) /\
  (path_exists os path = false ->
   fst run = Ok false /\ written (snd run) = written st) /\
  (forall e, path_exists os path = true -> read_text os path = Raise e ->
   fst run = Raise e /\ written (snd run) = written st) /\
  (forall original,
     path_exists os path = true -> read_text os path = Ok original ->
     (replacement = token \/ contains token original = false ->
      fst run = Ok false /\ written (snd run) = written st) /\
     (replacement <> token -> contains token original = true ->
      (dry_run = true -> fst run = Ok true) /\
      (dry_run = false ->
       written (snd run)
       = written st
         ++ [(path, replace_token_in_text original token replacement)] /\
       (write_text os path
          (replace_token_in_text original token replacement) = Ok tt ->
        fst run = Ok true)))).
Proof.
  intros run. subst run.
  repeat match goal with |- _ /\ _ => split end.
  - intros ->. destruct (path_exists os path) eqn:He.
    + destruct (read_text os path) as [original|e] eqn:Hr.
      * destruct (list_eq_dec N.eq_dec
                    (replace_token_in_text original token replacement)
                    original) as [E|Hne].
        -- apply (replace_token_in_file_same os path token replacement
                    true st original He Hr E).
        -- apply (replace_token_in_file_differs os path token replacement
                    true st original He Hr Hne). reflexivity.
      * now rewrite (replace_token_in_file_unreadable os path token
                       replacement true st e He Hr).
    + now apply replace_token_in_file_missing.
  - now apply replace_token_in_file_missing.
  - intros e He Hr.
    now rewrite (replace_token_in_file_unreadable os path token replacement
                   dry_run st e He Hr).
  - intros original He Hr. split.
    + intros Hsame. apply (replace_token_in_file_same os path token
                             replacement dry_run st original He Hr).
      now apply replace_token_in_text_eq.
    + intros Hne Hc.
      assert (replace_token_in_text original token replacement <> original)
        as Hd.
      { intros E. apply replace_token_in_text_eq in E.
        destruct E as [E|E]; congruence. }
      pose proof (replace_token_in_file_differs os path token replacement
                    dry_run st original He Hr Hd) as H.
      cbv zeta in H. destruct H as [H1 H2]. split.
      * intros Hdry. now apply H1.
      * intros Hdry. destruct (H2 Hdry) as (W & Wok & _). auto.
Qed.

(** The template's [README.md] on a disk that takes every write. *)
Example replace_token_in_file_example :
  let os := disk_of [("README.md"%string, lit "# input_name")] in
  replace_token_in_file os "README.md" TOKEN (lit "tts") false no_io
  = (Ok true,
     {| written := [("README.md"%string, lit "# tts")];
        printed := [lit "  - Updated: README.md"] |}) /\
  replace_token_in_file os "README.md" TOKEN (lit "tts") true no_io
  = (Ok true,
     {| written := []; printed := [lit "  - Would update: README.md"] |}) /\
  replace_token_in_file os "pyproject.toml" TOKEN (lit "tts") false no_io
  = (Ok false,
     {| written := [];
        printed := [lit "  - Skipping missing file: pyproject.toml"] |}).
Proof. repeat split. Qed.

(* ================================================================== *)
(** * Voice enumeration: where it stops *)
(* ================================================================== *)

Section Enumeration.

Variable lower : str -> str.
Variable os : sapi.

(** The worker's loop over voices [seen], none of which matches, followed
    by a voice [d] that does: it stops at [d], whatever comes after. *)
Lemma select_first_stops (mm d : str) (seen : list str) :
  truthy mm = true -> contains mm (lower d) = true ->
  Forall (fun d' => contains mm (lower d') = false) seen ->
  forall i0 k st,
    (forall j d', nth_error (seen ++ [d]) j = Some d' ->
       Item os (i0 + j) = Ok tt /\ GetDescription os (i0 + j) = Ok d') ->
    select_first lower os mm (seq i0 (List.length seen + S k)) st
    = (Ok (Some (i0 + List.length seen)), st).
Proof.
  intros Ht Hd. induction seen as [|x seen IH]; intros Hno i0 k st He.
  - destruct (He 0 d eq_refl) as [HI HD]. rewrite Nat.add_0_r in HI, HD.
    cbn [List.length Nat.add seq select_first]. unfold bind at 1 2, call.
    rewrite HI, HD, Ht, Hd. cbn [andb]. now rewrite Nat.add_0_r.
  - inversion Hno as [|? ? Hx Hno']; subst.
    destruct (He 0 x eq_refl) as [HI HD]. rewrite Nat.add_0_r in HI, HD.
    cbn [List.length Nat.add seq select_first]. unfold bind at 1 2, call.
    rewrite HI, HD, Ht, Hx. cbn [andb].
    rewrite (IH Hno' (S i0) k st).
    + do 3 f_equal. lia.
    + intros j d' Hj. specialize (He (S j) d' Hj).
      now rewrite Nat.add_succ_r in He.
Qed.

(** The script's loop over voices [seen], followed by a voice that cannot
    be described: it raises, having selected nothing and spoken nothing. *)
Lemma choose_last_raises (e : exn) (seen : list str) :
  forall i0 k chosen st,
    (forall j d', nth_error seen j = Some d' ->
       Item os (i0 + j) = Ok tt /\ GetDescription os (i0 + j) = Ok d') ->
    Item os (i0 + List.length seen) = Ok tt ->
    GetDescription os (i0 + List.length seen) = Raise e ->
    exists st',
      choose_last lower os (seq i0 (List.length seen + S k)) chosen st
      = (Raise e, st') /\
      Voice st' = Voice st /\ spoken st' = spoken st.
Proof.
  induction seen as [|x seen IH]; intros i0 k chosen st He HbI HbD.
  - cbn [List.length Nat.add seq choose_last]. unfold bind at 1 2, call.
    rewrite Nat.add_0_r in HbI, HbD. rewrite HbI, HbD. eauto.
  - destruct (He 0 x eq_refl) as [HI HD]. rewrite Nat.add_0_r in HI, HD.
    cbn [List.length Nat.add seq choose_last].
    unfold bind at 1 2 3, call, print, modify. rewrite HI, HD.
    cbn [List.length] in HbI, HbD. rewrite Nat.add_succ_r in HbI, HbD.
    match goal with
    | |- context [choose_last lower os _ ?c ?s] =>
        destruct (IH (S i0) k c s) as (st' & -> & HV & Hs);
          [|exact HbI|exact HbD|]
    end.
    + intros j d' Hj. specialize (He (S j) d' Hj).
      now rewrite Nat.add_succ_r in He.
    + exists st'. destruct st. auto.
Qed.

End Enumeration.

(** X13. The worker stops enumerating at the first voice that matches, so a
    later voice that cannot be described does no harm: the start-up
    succeeds with the first match selected.  [voice_test.py] visits every
    voice: on the same engine it raises at the broken voice, before it has
    selected a voice or spoken its test phrase. *)
Theorem enumeration_stops_at_first_match (lower : str -> str) (os : sapi)
    (seen : list str) (d : str) (n : nat) (e : exn) :
  python_lower lower ->
  CoInitialize os = Ok tt -> Dispatch os = Ok tt -> GetVoices os = Ok tt ->
  (forall i, put_Voice os i = Ok tt) ->
  (exists dsel, Voice_GetDescription os = Ok dsel) ->
  Count os = Ok n -> S (List.length seen) < n ->
  enumerates_first os (seen ++ [d]) ->
  Forall (fun d' => contains (lit "natural") (lower d') = false) seen ->
  contains (lit "natural") (lower d) = true ->
  Item os (S (List.length seen)) = Ok tt ->
  GetDescription os (S (List.length seen)) = Raise e ->
  let worker := _run lower os (__init__ lower (Some (lit "natural"))) in
  let script := voice_test lower os fresh in
  _thr worker = Draining /\
  Voice (mem worker) = Some (List.length seen) /\
  fst script = Raise e /\
  Voice (snd script) = None /\
  spoken (snd script) = [].
Proof.
  intros Hlower HC HD HG HV [dsel Hsel] Hcount Hn Hen Hno Hhit HbI HbD
    worker script.
  pose proof (lower_natural lower Hlower) as Hnat.
  assert (exists k, n = List.length seen + S (S k)) as [k ->].
  { exists (n - S (S (List.length seen))). lia. }
  assert (_thr worker = Draining /\
          Voice (mem worker) = Some (List.length seen)) as [Hw1 Hw2].
  { assert (exists st',
              _run_startup lower os (lit "natural") (set_com true fresh)
              = (Ok tt, st') /\
              Voice st' = Some (List.length seen)) as (st' & Hs & HVst).
    { unfold _run_startup. unfold bind at 1 2 3 4, call.
      rewrite HD, HG, Hcount.
      rewrite (select_first_stops lower os (lit "natural") d seen eq_refl
                 Hhit Hno 0 (S k)); [|exact Hen].
      unfold assign_Voice, assign_Rate, assign_Volume, print, try_except,
        bind, call, modify, ret.
      rewrite HV, Hsel.
      destruct (put_Rate os SAPI_RATE) as [[]|e1];
        destruct (put_Volume os SAPI_VOLUME) as [[]|e2];
        eexists; split; reflexivity. }
    subst worker. unfold _run, in_try.
    rewrite (__init___match lower), Hnat.
    change (_thr (__init__ lower (Some (lit "natural")))) with Initializing.
    change (mem (__init__ lower (Some (lit "natural")))) with fresh.
    cbv iota. unfold bind, call, modify. rewrite HC. cbv beta iota.
    rewrite Hs. split; [reflexivity|exact HVst]. }
  assert (exists st', script = (Raise e, st') /\
                      Voice st' = None /\ spoken st' = []) as (st' & -> & H).
  { subst script. unfold voice_test.
    unfold bind at 1 2 3 4 5, call, print, modify. rewrite HD, HG, Hcount.
    replace (List.length seen + S (S k))
      with (List.length (seen ++ [d]) + S k)
      by (rewrite length_app; simpl; lia).
    match goal with
    | |- context [choose_last lower os _ None ?s] =>
        destruct (choose_last_raises lower os e (seen ++ [d]) 0 k None s)
          as (st' & -> & HVo & Hsp)
    end.
    - exact Hen.
    - now rewrite length_app, Nat.add_1_r.
    - now rewrite length_app, Nat.add_1_r.
    - exists st'. split; [reflexivity|]. now rewrite HVo, Hsp. }
  tauto.
Qed.

Lemma enumeration_stops_at_first_match_witness :
  let worker := _run ascii_lower engine_with_broken_voice
                  (__init__ ascii_lower (Some (lit "natural"))) in
  let script := voice_test ascii_lower engine_with_broken_voice fresh in
  _thr worker = Draining /\
  Voice (mem worker) = Some 1 /\
  fst script = Raise (Error "The token is missing its description") /\
  Voice (snd script) = None /\
  spoken (snd script) = [].
Proof.
  apply (enumeration_stops_at_first_match ascii_lower engine_with_broken_voice
           [lit "Microsoft David"] (lit "Microsoft Natural-II") 3
           (Error "The token is missing its description")
           ascii_lower_python eq_refl eq_refl eq_refl (fun _ => eq_refl)
           (ex_intro _ _ eq_refl) eq_refl).
  - simpl. lia.
  - intros [|[|[|i]]] d0 H; simpl in H; try discriminate;
      injection H as <-; split; reflexivity.
  - repeat constructor.
  - reflexivity.
  - reflexivity.
  - reflexivity.
Defined.

(* ================================================================== *)
(** * The voice-listing script: what it prints *)
(* ================================================================== *)

Section VoiceListing.

Variable lower : str -> str.
Variable os : sapi.
Variable descs : list str.
Hypothesis Henum : enumerates os descs.

(** The [for] loop prints one line for each voice. *)
Lemma choose_last_stdout (rest : list str) :
  forall pre chosen st,
    descs = pre ++ rest ->
    stdout (snd (choose_last lower os
                   (seq (List.length pre) (List.length rest)) chosen st))
    = stdout st ++ listing rest (List.length pre).
Proof.
  induction rest as [|d rest IH]; intros pre chosen st E.
  - simpl. now rewrite app_nil_r.
  - destruct (enumerated_at os descs Henum pre rest d E) as [HI HD].
    cbn [List.length seq choose_last listing].
    unfold bind at 1 2 3, call, print, modify. rewrite HI, HD.
    specialize (IH (pre ++ [d])). rewrite length_app, Nat.add_1_r in IH.
    rewrite IH by now rewrite <- app_assoc.
    destruct st. cbn [stdout set_stdout]. now rewrite <- app_assoc.
Qed.

End VoiceListing.

(** X14. When every engine call succeeds, [voice_test.py] prints its
    heading, then one line "index: description" for every enumerated voice,
    in order and numbered from 0, then one line that tells whether a voice
    whose description contains "natural" was found, with the description
    that the engine reports for the voice now selected. *)
Theorem voice_test_prints_listing (lower : str -> str) (os : sapi)
    (descs : list str) (dsel : str) :
  python_lower lower ->
  startup_succeeds os descs ->
  Voice_GetDescription os = Ok dsel ->
  stdout (snd (voice_test lower os fresh))
  = [lit "Available SAPI voices:" ++ [LF]]
    ++ listing descs 0
    ++ [match last_containing lower (lit "natural") descs with
        | Some _ => [LF] ++ lit "Selected Natural voice: " ++ dsel
        | None => [LF] ++ lit "No Natural voice found, using default voice."
        end].
Proof.
  intros Hlower Hstart Hsel.
  pose proof Hstart as [_ HD HG Henum HV _]. pose proof Henum as [HC _ _].
  unfold voice_test, bind, call, print, modify.
  rewrite HD, HG, HC. cbn beta iota.
  match goal with
  | |- context [choose_last lower os _ None ?s] =>
      destruct (choose_last_run lower Hlower os descs Hstart s)
        as (st2 & Ech & _ & _);
      pose proof (choose_last_stdout lower os descs Henum descs [] None s
                    eq_refl) as Hout
  end.
  cbn [List.length] in Hout. rewrite Ech in *. cbn [snd] in Hout.
  cbn [stdout set_stdout fresh app] in Hout.
  destruct (last_containing lower (lit "natural") descs) as [j|].
  - unfold assign_Voice, do_Speak, bind, call, modify. rewrite HV, Hsel.
    destruct st2. cbn in Hout |- *. now rewrite Hout.
  - unfold do_Speak. destruct st2. cbn in Hout |- *. now rewrite Hout.
Qed.

Lemma voice_test_prints_listing_witness :
  stdout (snd (voice_test ascii_lower
                 (engine example_voices (Ok tt) (fun _ => Ok tt)) fresh))
  = [lit "Available SAPI voices:" ++ [LF];
     lit "0: Microsoft David";
     lit "1: Microsoft Natural-II";
     lit "2: Microsoft Zira";
     [LF] ++ lit "Selected Natural voice: "].
Proof.
  apply (voice_test_prints_listing ascii_lower
           (engine example_voices (Ok tt) (fun _ => Ok tt))
           example_voices [] ascii_lower_python
           (engine_startup_succeeds _ _ _) eq_refl).
Defined.

(* ================================================================== *)
(** * The speech worker: nothing lost, nothing repeated *)
(* ================================================================== *)

(** X15. For every engine, healthy or not, every match string and every
    interleaving of the two threads, the texts passed to [Speak] followed by
    the texts still queued are exactly the submitted texts that meet the
    threshold, in the order of their submission: no accepted text is lost,
    spoken twice or overtaken, and no other text is ever spoken. *)
Theorem speak_queue_conservation (lower : str -> str) (os : sapi)
    (m : option str) (evs : list event) :
  let self := exec lower os evs (__init__ lower m) in
  spoken (mem self) ++ _q (mem self) = accepted (submitted evs).
Proof.
  intros self. subst self.
  now rewrite exec_conserves.
Qed.

(* ================================================================== *)
(** * The text normalizer, run of whitespace by run of whitespace *)
(* ================================================================== *)

Section Runs.

Lemma blank_app (a b : str) : blank a -> blank b -> blank (a ++ b).
Proof. intros Ha Hb. apply Forall_app. now split. Qed.

Lemma blank_snoc (gap : str) (c : char) :
  blank gap -> isspace c = true -> blank (gap ++ [c]).
Proof. intros Hg Hc. apply blank_app; [exact Hg|]. now repeat constructor. Qed.

(** A prefix of whitespace joins the run read so far. *)
Lemma map_runs_blank_prefix (ends : bool) (F : str -> str) (started : bool)
    (b : str) :
  blank b ->
  forall gap x,
    map_runs ends F started gap (b ++ x)
    = map_runs ends F started (gap ++ b) x.
Proof.
  induction 1 as [|c l Hc _ IH]; intros gap x.
  - now rewrite app_nil_r.
  - cbn [app map_runs]. rewrite Hc, IH, <- app_assoc. reflexivity.
Qed.

Lemma map_runs_blank (ends : bool) (F : str -> str) (started : bool)
    (gap b : str) :
  blank b ->
  map_runs ends F started gap b = if ends then F (gap ++ b) else [].
Proof.
  intros Hb. rewrite <- (app_nil_r b) at 1.
  now rewrite map_runs_blank_prefix.
Qed.

(** Only what [F] does to runs of whitespace counts. *)
Lemma map_runs_ext (ends : bool) (F F' : str -> str) :
  (forall g, blank g -> F g = F' g) ->
  forall s started gap,
    blank gap ->
    map_runs ends F started gap s = map_runs ends F' started gap s.
Proof.
  intros HF. induction s as [|c r IH]; intros started gap Hg; cbn [map_runs].
  - destruct ends; [now apply HF|reflexivity].
  - destruct (isspace c) eqn:Ec.
    + apply IH. now apply blank_snoc.
    + rewrite (IH true []) by constructor.
      destruct (started || ends); [now rewrite HF|reflexivity].
Qed.

(** Two passes over the runs are one pass. *)
Lemma map_runs_compose (e1 e2 : bool) (F G : str -> str) :
  F [] = [] -> (forall g, blank g -> blank (G g)) ->
  forall s started gap,
    blank gap ->
    map_runs e1 F started [] (map_runs e2 G started gap s)
    = map_runs (e1 && e2) (fun g => F (G g)) started gap s.
Proof.
  intros HF HG. induction s as [|c r IH]; intros started gap Hg;
    cbn [map_runs].
  - destruct e2.
    + rewrite map_runs_blank by now apply HG.
      rewrite andb_true_r. reflexivity.
    + rewrite andb_false_r. cbn [map_runs]. destruct e1; [exact HF|reflexivity].
  - destruct (isspace c) eqn:Ec; [apply IH; now apply blank_snoc|].
    assert (blank (if started || e2 then G gap else [])) as Hb.
    { destruct (started || e2); [now apply HG|constructor]. }
    rewrite map_runs_blank_prefix by exact Hb.
    cbn [map_runs app]. rewrite Ec, (IH true []) by constructor.
    f_equal.
    destruct started, e1, e2; cbn [orb andb]; try reflexivity; exact HF.
Qed.

(** A function that works on each run by itself is [map_runs] of itself. *)
Lemma acts_on_runs_map_runs (G : str -> str) :
  acts_on_runs G ->
  forall s started gap,
    blank gap -> G (gap ++ s) = map_runs true G started gap s.
Proof.
  intros (H0 & Hb & Hcut). induction s as [|c r IH]; intros started gap Hg;
    cbn [map_runs].
  - now rewrite app_nil_r.
  - destruct (isspace c) eqn:Ec.
    + rewrite <- IH by now apply blank_snoc.
      now rewrite <- app_assoc.
    + rewrite orb_true_r, Hcut by assumption.
      now rewrite <- (IH true []) by constructor.
Qed.

(** [replace], for a pattern and a replacement made of whitespace. *)
Lemma startswith_blank_cut (old : str) :
  blank old ->
  forall g c r,
    isspace c = false ->
    startswith old (g ++ c :: r) = startswith old g.
Proof.
  induction 1 as [|x l Hx _ IH]; intros g c r Hc; [now destruct g|].
  destruct g as [|a g]; cbn [app startswith].
  - destruct (N.eqb_spec x c) as [->|_]; [congruence|reflexivity].
  - now rewrite IH.
Qed.

Lemma startswith_length (old s : str) :
  startswith old s = true -> List.length old <= List.length s.
Proof.
  intros H. destruct (startswith_app _ _ H) as [t ->].
  rewrite length_app. lia.
Qed.

Lemma replace_go_cut (old new : str) :
  blank old -> old <> [] ->
  forall g k c r,
    blank g -> isspace c = false -> k <= List.length g ->
    replace_go old new k (g ++ c :: r)
    = replace_go old new k g ++ c :: replace_go old new 0 r.
Proof.
  intros Hold Hne. induction g as [|a g IH]; intros k c r Hg Hc Hk.
  - assert (k = 0) as -> by (simpl in Hk; lia).
    cbn [app replace_go].
    pose proof (startswith_blank_cut old Hold [] c r Hc) as E.
    cbn [app] in E. rewrite E.
    destruct old; [contradiction|reflexivity].
  - inversion Hg as [|? ? Ha Hg']; subst.
    destruct k as [|k]; cbn [app replace_go].
    + change (a :: g ++ c :: r) with ((a :: g) ++ c :: r).
      rewrite (startswith_blank_cut old Hold (a :: g) c r Hc).
      destruct (startswith old (a :: g)) eqn:Es.
      * apply startswith_length in Es. cbn [List.length] in Es.
        rewrite IH by (assumption || lia). now rewrite app_assoc.
      * now rewrite IH by (assumption || lia).
    + apply IH; try assumption. simpl in Hk. lia.
Qed.

Lemma replace_acts_on_runs (old new : str) :
  blank old -> old <> [] -> blank new ->
  acts_on_runs (fun g => replace g old new).
Proof.
  intros Hold Hne Hnew. repeat split.
  - intros g Hg. now apply replace_Forall.
  - intros g c r Hg Hc. unfold replace.
    apply replace_go_cut; try assumption. lia.
Qed.

(** [re.sub]. *)
Lemma re_sub_ws2_go_cut (repl g : str) :
  forall b c r,
    blank g -> isspace c = false ->
    re_sub_ws2_go repl b (g ++ c :: r)
    = re_sub_ws2_go repl b g ++ c :: re_sub_ws2_go repl false r.
Proof.
  induction g as [|a g IH]; intros b c r Hg Hc.
  - cbn [app re_sub_ws2_go]. rewrite Hc. now destruct b.
  - inversion Hg as [|? ? Ha Hg']; subst.
    cbn [app re_sub_ws2_go]. rewrite Ha.
    destruct b; [now apply IH|].
    assert (match g ++ c :: r with d :: _ => isspace d | [] => false end
            = match g with d :: _ => isspace d | [] => false end) as ->.
    { destruct g; [exact Hc|reflexivity]. }
    destruct (true && _); rewrite IH by assumption;
      [now rewrite app_assoc|reflexivity].
Qed.

Lemma re_sub_ws2_acts_on_runs : acts_on_runs (re_sub_ws2 [SP]).
Proof.
  repeat split.
  - intros g Hg. apply re_sub_ws2_go_Forall; [now repeat constructor|exact Hg].
  - intros g c r Hg Hc. now apply re_sub_ws2_go_cut.
Qed.

(** [strip] drops the runs at the two ends and keeps everything else. *)
Lemma map_runs_id_tail (q : str) :
  blank q ->
  forall x gap,
    blank gap -> head_ws (rev x) = false ->
    map_runs false (fun g => g) true gap (x ++ q)
    = match x with [] => [] | _ :: _ => gap ++ x end.
Proof.
  intros Hq. induction x as [|a x IH]; intros gap Hg Hl.
  - now rewrite map_runs_blank.
  - assert (head_ws (rev x) = false) as Hl'.
    { destruct x as [|b x]; [reflexivity|].
      cbn [rev] in Hl |- *. rewrite <- Hl.
      destruct (rev x ++ [b]) eqn:E; [|reflexivity].
      destruct (rev x); discriminate. }
    cbn [app map_runs]. destruct (isspace a) eqn:Ea.
    + destruct x as [|b x]; [simpl in Hl; congruence|].
      rewrite IH by (try apply blank_snoc; assumption).
      now rewrite <- app_assoc.
    + rewrite IH by (constructor || assumption).
      cbn [orb]. now destruct x.
Qed.

Lemma strip_map_runs (s : str) :
  strip s = map_runs false (fun g => g) false [] s.
Proof.
  destruct (lstrip_split s) as (p & Hp & Hbp).
  destruct (rstrip_split (lstrip s)) as (q & Hq & Hbq).
  fold (strip s) in Hq.
  pose proof (strip_head s) as Hh. pose proof (strip_last s) as Hl.
  rewrite Hp at 2. rewrite Hq.
  rewrite map_runs_blank_prefix by exact Hbp. cbn [app].
  destruct (strip s) as [|c m] eqn:Es.
  - cbn [app]. now rewrite map_runs_blank.
  - cbn [head_ws] in Hh. cbn [app map_runs]. rewrite Hh. cbn [orb app].
    f_equal.
    assert (head_ws (rev m) = false) as Hl'.
    { destruct m as [|b m]; [reflexivity|].
      cbn [rev] in Hl |- *. rewrite <- Hl.
      destruct (rev m ++ [b]) eqn:E; [|reflexivity].
      destruct (rev m); discriminate. }
    rewrite (map_runs_id_tail q Hbq m []) by (constructor || assumption).
    now destruct m.
Qed.

(** A pass that works on each run by itself, after a pass over the runs. *)
Lemma stage_after_map_runs (G F : str -> str) (ends : bool) (s : str) :
  acts_on_runs G -> (forall g, blank g -> blank (F g)) ->
  G (map_runs ends F false [] s)
  = map_runs ends (fun g => G (F g)) false [] s.
Proof.
  intros HG HF.
  rewrite <- (app_nil_l (map_runs ends F false [] s)).
  rewrite (acts_on_runs_map_runs G HG _ false []) by constructor.
  rewrite map_runs_compose; try assumption; [reflexivity| |constructor].
  apply HG.
Qed.

Lemma strip_after_map_runs (F : str -> str) (ends : bool) (s : str) :
  (forall g, blank g -> blank (F g)) ->
  strip (map_runs ends F false [] s) = map_runs false F false [] s.
Proof.
  intros HF. rewrite strip_map_runs.
  rewrite map_runs_compose; try assumption; [|reflexivity|constructor].
  apply map_runs_ext; [reflexivity|constructor].
Qed.

(** What the passes of [tidy_text] make of one run of whitespace. *)
Lemma replace_go_length_half (s : str) :
  forall k,
    List.length s
    <= 2 * List.length (replace_go [CR; LF] [SP] k s) + k.
Proof.
  induction s as [|c r IH]; intros k; [simpl; lia|].
  destruct k as [|k]; cbn [replace_go].
  - destruct (startswith [CR; LF] (c :: r)).
    + specialize (IH 1). cbn [List.length app Nat.sub] in *. lia.
    + specialize (IH 0). cbn [List.length] in *. lia.
  - specialize (IH k). cbn [List.length]. lia.
Qed.

Lemma replace_char_length (x y : char) (s : str) :
  List.length (replace s [x] [y]) = List.length s.
Proof.
  unfold replace. induction s as [|c r IH]; [reflexivity|].
  cbn [replace_go]. destruct (startswith [x] (c :: r));
    cbn [List.length app Nat.sub]; now rewrite IH.
Qed.

Lemma re_sub_ws2_go_blank (g : str) :
  blank g -> re_sub_ws2_go [SP] true g = [].
Proof.
  induction 1 as [|c l Hc _ IH]; [reflexivity|].
  cbn [re_sub_ws2_go]. now rewrite Hc.
Qed.

Lemma re_sub_ws2_run (u : str) :
  blank u -> 2 <= List.length u -> re_sub_ws2 [SP] u = [SP].
Proof.
  intros Hu Hlen. destruct u as [|a [|b u]]; try (simpl in Hlen; lia).
  inversion Hu as [|? ? Ha Hu']; subst.
  inversion Hu' as [|? ? Hb Hu'']; subst.
  unfold re_sub_ws2. cbn [re_sub_ws2_go]. rewrite Ha, Hb. cbn [andb].
  rewrite re_sub_ws2_go_blank by assumption. reflexivity.
Qed.

Lemma tidy_text_on_run (g : str) :
  blank g ->
  re_sub_ws2 [SP]
    (replace (replace (replace g [CR; LF] [SP]) [LF] [SP]) [CR] [SP])
  = one_space g.
Proof.
  intros Hg.
  assert (blank [SP]) as Hsp by now repeat constructor.
  destruct g as [|a [|b g]].
  - reflexivity.
  - (* one character *)
    inversion Hg as [|? ? Ha _]; subst.
    unfold replace, re_sub_ws2. cbn [replace_go startswith one_space].
    rewrite andb_false_r. cbn [replace_go startswith List.length Nat.sub app].
    rewrite andb_true_r, (N.eqb_sym LF a).
    destruct (N.eqb_spec a LF) as [->|Hn]; [reflexivity|].
    cbn [orb replace_go startswith List.length Nat.sub app].
    rewrite andb_true_r, (N.eqb_sym CR a).
    destruct (N.eqb_spec a CR) as [->|Hr]; [reflexivity|].
    cbn [re_sub_ws2_go]. now rewrite Ha.
  - (* two characters or more *)
    cbn [one_space].
    set (u1 := replace (a :: b :: g) [CR; LF] [SP]).
    assert (blank u1) as Hb1 by now apply replace_Forall.
    assert (u1 = [SP] \/ 2 <= List.length u1) as [E|Hlen].
    { destruct g as [|c g].
      - subst u1. unfold replace. cbn [replace_go startswith].
        rewrite andb_true_r.
        destruct ((CR =? a)%N && (LF =? b)%N) eqn:E; [now left|right].
        rewrite andb_false_r. cbn [replace_go List.length]. lia.
      - right. subst u1. unfold replace.
        pose proof (replace_go_length_half (a :: b :: c :: g) 0) as H.
        cbn [List.length] in H. lia. }
    + rewrite E. reflexivity.
    + apply re_sub_ws2_run.
      * repeat apply replace_Forall; assumption.
      * now rewrite !replace_char_length.
Qed.

Lemma normalize_from_map_runs (s : str) :
  forall started gap,
    normalize_from started gap s = map_runs false one_space started gap s.
Proof.
  induction s as [|c r IH]; intros started gap; [reflexivity|].
  cbn [normalize_from map_runs]. rewrite !IH, orb_false_r. reflexivity.
Qed.

(** The passes of [tidy_text] together are the one pass of [normalize]. *)
Lemma tidy_text_normalize (s : str) : tidy_text s = normalize s.
Proof.
  unfold normalize. rewrite normalize_from_map_runs.
  unfold tidy_text. destruct s as [|c r]; [reflexivity|]. cbn [truthy negb].
  set (s := c :: r).
  assert (blank [SP]) as Hsp by now repeat constructor.
  assert (blank [CR; LF]) as Hcrlf by now repeat constructor.
  assert (blank [LF]) as Hlf by now repeat constructor.
  assert (blank [CR]) as Hcr by now repeat constructor.
  pose proof (replace_acts_on_runs [CR; LF] [SP] Hcrlf ltac:(discriminate) Hsp)
    as A1.
  pose proof (replace_acts_on_runs [LF] [SP] Hlf ltac:(discriminate) Hsp)
    as A2.
  pose proof (replace_acts_on_runs [CR] [SP] Hcr ltac:(discriminate) Hsp)
    as A3.
  pose proof re_sub_ws2_acts_on_runs as A4.
  rewrite (strip_map_runs s).
  rewrite (stage_after_map_runs (fun g => replace g [CR; LF] [SP])
             (fun g => g) false s A1) by auto.
  rewrite (stage_after_map_runs (fun g => replace g [LF] [SP]) _ false s A2)
    by (intros g Hg; now apply A1).
  rewrite (stage_after_map_runs (fun g => replace g [CR] [SP]) _ false s A3)
    by (intros g Hg; apply A2; now apply A1).
  rewrite (stage_after_map_runs (re_sub_ws2 [SP]) _ false s A4)
    by (intros g Hg; apply A3; apply A2; now apply A1).
  rewrite strip_after_map_runs
    by (intros g Hg; apply A4; apply A3; apply A2; now apply A1).
  apply map_runs_ext; [|constructor].
  intros g Hg. now apply tidy_text_on_run.
Qed.

End Runs.

Example normalize_example :
  normalize ([SP; 0x09%N] ++ lit "Hello" ++ [CR; LF] ++ lit "World   !"
             ++ [0x09%N] ++ lit "ok" ++ [LF])
  = lit "Hello World !" ++ [0x09%N] ++ lit "ok".
Proof. reflexivity. Qed.

(** C2. For every input string [s], [tidy_text s] is [s] with the
    whitespace before its first word and after its last word stripped, and
    with every run of whitespace between two words replaced: a newline, in
    any of its forms, by a space, a run of two or more whitespace characters
    by one space ([normalize]); what is not whitespace is copied.  So the
    result holds no line feed and no carriage return, no two consecutive
    space characters (indeed no two consecutive whitespace characters), and
    neither starts nor ends with a whitespace character; its words are the
    words of [s]. *)
Theorem tidy_text_clean (s : str) :
  let t := tidy_text s in
  (~ In LF t /\ ~ In CR t) /\
  (forall l1 l2, t <> l1 ++ SP :: SP :: l2) /\
  (forall l1 l2 a b, t = l1 ++ a :: b :: l2 -> isspace a && isspace b = false) /\
  (forall c r, t = c :: r -> isspace c = false) /\
  (forall l c, t = l ++ [c] -> isspace c = false) /\
  t = normalize s /\
  words t = words s.
Proof.
  intros t. pose proof (tidy_text_normalized s) as Hn. fold t in Hn.
  repeat match goal with |- _ /\ _ => split end.
  - apply (norm_LF _ Hn).
  - apply (norm_CR _ Hn).
  - intros l1 l2 E. pose proof (normalized_no_run _ _ _ _ _ Hn E) as H.
    discriminate H.
  - intros l1 l2 a b E. exact (normalized_no_run _ _ _ _ _ Hn E).
  - intros c r E. exact (normalized_leading _ _ _ Hn E).
  - intros l c E. exact (normalized_trailing _ _ _ Hn E).
  - apply tidy_text_normalize.
  - apply words_tidy_text.
Qed.
